(** * safe-search-params: typed reads and order-preserving updates of a
      query string

    A shallow embedding of [mod.ts]'s datatypes ([rString], [rInteger],
    [rPresent], [rRegex], [rEnum], [rMultiple]), of the facade built by
    [safeSearchParams] and of [createSafeSearchParamsErreur], followed by
    the properties proved of them.

    Conventions of the embedding.
    - A JavaScript string is a [string]; each character stands for one
      code unit, which is what [URLSearchParams.sort] compares.
    - [T | null] with [T] a type without [null] is [option T].
    - A field of [setObj]'s [values] is [Out | null] for every datatype:
      [None] is that [null], and what [serialize] does with it is part of
      the datatype as the schema holds it ([TDatatypeAny]).
    - [string[]] is [list string]; an entry [[key, value]] is a pair.
    - A plain object used as a dictionary is the list of its own
      enumerable properties in the order [Object.entries] visits them;
      reading a property falls back on [Object.prototype].
    - The [Map] in which a facade caches its lookups is a [gmap], threaded
      through the reads as explicit state.
    - [throw] is the [Throw] branch of [Completion]. *)

From Stdlib Require Import Strings.String Strings.Ascii NArith.NArith.
From Stdlib Require Import Floats.SpecFloat.
From stdpp Require Import base option list sorting gmap strings.

Local Open Scope string_scope.
Local Open Scope list_scope.

(** ** JavaScript values seen by a caller *)

(** A [number] is an IEEE 754 value. *)
Definition Number : Type := spec_float.

(** The values the datatypes of this library produce, as an untyped
    caller observes them: TypeScript's unions are untagged, so
    [null : string | null] and the [null] that [get] returns on a parse
    failure are one and the same value. *)
#[warnings="-register-all"]
Inductive JsVal : Type :=
| JNull
| JBool (b : bool)
| JNum (n : Number)
| JStr (s : string)
| JArr (items : list JsVal).

Class ToJs (A : Type) : Type := to_js : A -> JsVal.

#[export] Instance string_to_js : ToJs string := JStr.
#[export] Instance bool_to_js : ToJs bool := JBool.
#[export] Instance number_to_js : ToJs Number := JNum.
#[export] Instance nullable_to_js {A} `{ToJs A} : ToJs (option A) :=
  fun o => match o with Some a => to_js a | None => JNull end.
#[export] Instance array_to_js {A} `{ToJs A} : ToJs (list A) :=
  fun l => JArr (List.map to_js l).

(** ** Host functions

    [parseInt], [Number.prototype.toFixed] and regular expressions belong
    to the JavaScript runtime; the datatypes are defined over any
    implementation of them.  [RegExp_test] is [regex.test(s)] for a
    regular expression without the [g] and [y] flags, whose [lastIndex]
    is never consulted. *)
Class JsHost : Type := {
  parseInt : string -> N -> Number;
  toFixed : Number -> string;
  RegExp : Type;
  RegExp_source : RegExp -> string;
  RegExp_test : RegExp -> string -> bool;
}.

Definition Number_isNaN (n : Number) : bool :=
  match n with S754_nan => true | _ => false end.

Definition Number_isFinite (n : Number) : bool :=
  match n with S754_nan | S754_infinity _ => false | _ => true end.

(** [Array.prototype.join]. *)
Fixpoint join (sep : string) (items : list string) : string :=
  match items with
  | [] => EmptyString
  | [item] => item
  | item :: rest => item +:+ sep +:+ join sep rest
  end.

(** [Array.prototype.includes], on strings. *)
Fixpoint includes (items : list string) (searched : string) : bool :=
  match items with
  | [] => false
  | item :: rest => String.eqb item searched || includes rest searched
  end.

(** ** types.ts *)

Inductive TDtParseOutput (T : Type) : Type :=
| Valid (value : T)
| Invalid (error : string).
Arguments Valid {T} value.
Arguments Invalid {T} error.

Definition valid {T} (parsed : TDtParseOutput T) : bool :=
  match parsed with Valid _ => true | Invalid _ => false end.

Record TDatatype (Out : Type) : Type := {
  name : string;
  parse : list string -> TDtParseOutput Out;
  serialize : Out -> list string;
}.
Arguments name {Out} _.
Arguments parse {Out} _ _.
Arguments serialize {Out} _ _.

(** ** The datatypes *)

Definition getFirst (input : list string) : option string :=
  match input with
  | [] => None
  | first :: _ => Some first
  end.

Definition rString : TDatatype (option string) := {|
  name := "String";
  parse := fun input =>
    let last := getFirst input in
    Valid last;
  serialize := fun output =>
    match output with None => [] | Some s => [s] end;
|}.

Definition rPresent : TDatatype bool := {|
  name := "Present";
  parse := fun input =>
    let last := getFirst input in
    Valid (match last with None => false | Some _ => true end);
  serialize := fun output => if output then [EmptyString] else [];
|}.

Definition rEnum (values : list string) : TDatatype (option string) := {|
  name := "Enum<" +:+ join " | " values +:+ ">";
  parse := fun input =>
    let last := getFirst input in
    match last with
    | None => Valid None
    | Some last =>
        if negb (includes values last) then Invalid "Invalid value"
        else Valid (Some last)
    end;
  serialize := fun output =>
    match output with None => [] | Some s => [s] end;
|}.

Section HostDatatypes.
Context `{JsHost}.

Definition rInteger : TDatatype (option Number) := {|
  name := "Integer";
  parse := fun input =>
    let last := getFirst input in
    match last with
    | None => Valid None
    | Some last =>
        let parsed := parseInt last 10 in
        if Number_isNaN parsed || negb (Number_isFinite parsed)
        then Invalid "Invalid integer"
        else if negb (String.eqb (toFixed parsed) last)
        then Invalid "Invalid integer"
        else Valid (Some parsed)
    end;
  serialize := fun output =>
    match output with None => [] | Some n => [toFixed n] end;
|}.

Definition rRegex (regex : RegExp) : TDatatype (option string) := {|
  name := "Regex<" +:+ RegExp_source regex +:+ ">";
  parse := fun input =>
    let last := getFirst input in
    match last with
    | None => Valid None
    | Some last =>
        if negb (RegExp_test regex last) then Invalid "Invalid value"
        else Valid (Some last)
    end;
  serialize := fun output =>
    match output with None => [] | Some s => [s] end;
|}.
End HostDatatypes.

(** [rMultiple]'s [parse]: the [for] loop over [input], [values] being
    the array filled so far. *)
Fixpoint rMultiple_parse {TOut} (subType : TDatatype TOut)
    (input : list string) (values : list TOut)
  : TDtParseOutput (list TOut) :=
  match input with
  | [] => Valid values
  | value :: rest =>
      match parse subType [value] with
      | Invalid _ => Invalid "Invalid value"
      | Valid v => rMultiple_parse subType rest (values ++ [v])
      end
  end.

(** [rMultiple]'s [serialize]: [values.push(...subType.serialize(value))]
    for each value of [output]. *)
Fixpoint rMultiple_serialize {TOut} (subType : TDatatype TOut)
    (output : list TOut) (values : list string) : list string :=
  match output with
  | [] => values
  | value :: rest =>
      rMultiple_serialize subType rest (values ++ serialize subType value)
  end.

Definition rMultiple {TOut} (subType : TDatatype TOut)
  : TDatatype (list TOut) := {|
  name := "Multiple<" +:+ name subType +:+ ">";
  parse := fun input => rMultiple_parse subType input [];
  serialize := fun output => rMultiple_serialize subType output [];
|}.

(** [NonNullable<TOut>]: the values of [TOut] but [null] and
    [undefined].  [non_nullable value] is [None] when [value] is one of
    the two; [to_nullable] reads a value of [NonNullable<TOut>] as one of
    [TOut]. *)
Class Nullish (TOut : Type) : Type := {
  NonNullable : Type;
  non_nullable : TOut -> option NonNullable;
  to_nullable : NonNullable -> TOut;
}.

#[export] Instance null_or_nullish {A} : Nullish (option A) := {|
  NonNullable := A;
  non_nullable := fun value => value;
  to_nullable := Some;
|}.
#[export] Instance string_nullish : Nullish string := {|
  NonNullable := string;
  non_nullable := Some;
  to_nullable := fun value => value;
|}.
#[export] Instance bool_nullish : Nullish bool := {|
  NonNullable := bool;
  non_nullable := Some;
  to_nullable := fun value => value;
|}.
#[export] Instance number_nullish : Nullish Number := {|
  NonNullable := Number;
  non_nullable := Some;
  to_nullable := fun value => value;
|}.
#[export] Instance array_nullish {A} : Nullish (list A) := {|
  NonNullable := list A;
  non_nullable := Some;
  to_nullable := fun value => value;
|}.

Definition rRequired {TOut} `{Nullish TOut} (parser : TDatatype TOut)
  : TDatatype NonNullable := {|
  name := "Required<" +:+ name parser +:+ ">";
  parse := fun input =>
    let parsed := parse parser input in
    match parsed with
    | Invalid error => Invalid error
    | Valid value =>
        match non_nullable value with
        | None => Invalid "Missing value"
        | Some value => Valid value
        end
    end;
  serialize := fun output => serialize parser (to_nullable output);
|}.

(** ** URLSearchParams

    The platform class the facade wraps (URL Standard, section 5.2): an
    ordered list of name-value pairs.  [sort] is stable and compares
    names by code units. *)
Module URLSearchParams.

Definition t : Type := list (string * string).

Fixpoint getAll (name : string) (pairs : t) : list string :=
  match pairs with
  | [] => []
  | (key, value) :: rest =>
      if String.eqb key name then value :: getAll name rest
      else getAll name rest
  end.

Fixpoint delete (name : string) (pairs : t) : t :=
  match pairs with
  | [] => []
  | (key, value) :: rest =>
      if String.eqb key name then delete name rest
      else (key, value) :: delete name rest
  end.

Definition append (name value : string) (pairs : t) : t :=
  pairs ++ [(name, value)].

(** Puts [entry] in front of the first pair of [sorted] whose name is
    not smaller: a pair moves ahead of the pairs with a larger name
    only. *)
Fixpoint insert_sorted (entry : string * string) (sorted : t) : t :=
  match sorted with
  | [] => [entry]
  | next :: rest =>
      if String.leb (fst entry) (fst next) then entry :: next :: rest
      else next :: insert_sorted entry rest
  end.

Fixpoint sort (pairs : t) : t :=
  match pairs with
  | [] => []
  | entry :: rest => insert_sorted entry (sort rest)
  end.

End URLSearchParams.

(** ** Plain objects used as dictionaries *)

(** The own enumerable properties of an object, in the order in which
    [Object.entries] and [for ... in] visit them (ECMA-262,
    OrdinaryOwnPropertyKeys): array indices in ascending order, then the
    other names by creation time. *)
Definition JsObject (V : Type) : Type := list (string * V).

Definition digit (c : ascii) : option N :=
  let n := N_of_ascii c in
  if ((48 <=? n) && (n <=? 57))%N then Some (n - 48)%N else None.

Fixpoint decimal (s : string) (acc : N) : option N :=
  match s with
  | EmptyString => Some acc
  | String c rest =>
      match digit c with
      | Some d => decimal rest (10 * acc + d)%N
      | None => None
      end
  end.

(** An array index is the canonical decimal form (no leading zero) of
    an integer below [2^32 - 1]. *)
Definition array_index (key : string) : option N :=
  match key with
  | EmptyString => None
  | String first rest =>
      if Ascii.eqb first "0" && negb (String.eqb rest EmptyString) then None
      else
        match decimal key 0 with
        | Some n => if (n <=? 4294967294)%N then Some n else None
        | None => None
        end
  end.

(** The members of [Object.prototype], each a function, with the
    [length] of that function (ECMA-262, properties of the Object
    prototype object, legacy accessor methods included; the [__proto__]
    accessor is not listed: the Deno runtime this library targets
    deletes it). *)
Definition Object_prototype (key : string) : option nat :=
  if String.eqb key "constructor" then Some 1
  else if String.eqb key "hasOwnProperty" then Some 1
  else if String.eqb key "isPrototypeOf" then Some 1
  else if String.eqb key "propertyIsEnumerable" then Some 1
  else if String.eqb key "toLocaleString" then Some 0
  else if String.eqb key "toString" then Some 0
  else if String.eqb key "valueOf" then Some 0
  else if String.eqb key "__defineGetter__" then Some 2
  else if String.eqb key "__defineSetter__" then Some 2
  else if String.eqb key "__lookupGetter__" then Some 1
  else if String.eqb key "__lookupSetter__" then Some 1
  else None.

(** What [object[key]] evaluates to. *)
Inductive Property (V : Type) : Type :=
| Own (value : V)
| Inherited (length : nat)
| Undefined.
Arguments Own {V} value.
Arguments Inherited {V} length.
Arguments Undefined {V}.

Section JsObject.
Context {V : Type}.

Fixpoint own_property (object : JsObject V) (key : string) : option V :=
  match object with
  | [] => None
  | (k, v) :: rest =>
      if String.eqb k key then Some v else own_property rest key
  end.

(** [object[key]]: the own property, else the one of the prototype. *)
Definition get_property (object : JsObject V) (key : string)
  : Property V :=
  match own_property object key with
  | Some value => Own value
  | None =>
      match Object_prototype key with
      | Some length => Inherited length
      | None => Undefined
      end
  end.

(** Changes the value of an own property where it stands. *)
Fixpoint update_property (object : JsObject V) (key : string) (value : V)
  : JsObject V :=
  match object with
  | [] => []
  | (k, v) :: rest =>
      if String.eqb k key then (k, value) :: rest
      else (k, v) :: update_property rest key value
  end.

(** Creates the property [key], an array index [index]. *)
Fixpoint create_index (object : JsObject V) (index : N) (key : string)
    (value : V) : JsObject V :=
  match object with
  | [] => [(key, value)]
  | (k, v) :: rest =>
      match array_index k with
      | Some i =>
          if (i <? index)%N then (k, v) :: create_index rest index key value
          else (key, value) :: object
      | None => (key, value) :: object
      end
  end.

(** [object[key] = value], and the definition of a property by an
    object literal or by [Object.fromEntries]. *)
Definition set_property (object : JsObject V) (key : string) (value : V)
  : JsObject V :=
  match own_property object key with
  | Some _ => update_property object key value
  | None =>
      match array_index key with
      | Some index => create_index object index key value
      | None => object ++ [(key, value)]
      end
  end.

Definition Object_entries (object : JsObject V) : list (string * V) :=
  object.

Definition Object_fromEntries (entries : list (string * V)) : JsObject V :=
  fold_left (fun object entry => set_property object entry.1 entry.2)
    entries [].

End JsObject.

(** ** Exceptions *)

(** erreur.ts: what [createSafeSearchParamsErreur] attaches to the
    error. *)
Record TSafeSearchParamsErreurData : Type := {
  Out : Type;
  datatype : TDatatype Out;
  property : string;
  values : list string;
  error : string;
}.

(** The values this module throws: [new Error(message)], the
    [TypeError] of the runtime on a call of something that is not a
    function, and the error that carries a
    [TSafeSearchParamsErreurData]. *)
Inductive Exception : Type :=
| Error (message : string)
| TypeError
| SafeSearchParamsErreur (message : string)
    (data : TSafeSearchParamsErreurData).

Inductive Completion (A : Type) : Type :=
| Return (result : A)
| Throw (exception : Exception).
Arguments Return {A} result.
Arguments Throw {A} exception.

#[export] Instance Completion_ret : MRet Completion := @Return.
#[export] Instance Completion_bind : MBind Completion :=
  fun A B f completion =>
    match completion with
    | Return a => f a
    | Throw exception => Throw exception
    end.

(** [for (const item of items) body], the loop carrying [state]; a
    [throw] of the body leaves the loop. *)
Fixpoint for_of {A S : Type} (body : S -> A -> Completion S)
    (items : list A) (state : S) : Completion S :=
  match items with
  | [] => Return state
  | item :: rest => body state item ≫= for_of body rest
  end.

Definition quote : string := String "034" EmptyString.

Definition createSafeSearchParamsErreur {T} (property : string)
    (datatype : TDatatype T) (values : list string) (error : string)
  : Exception :=
  SafeSearchParamsErreur
    ("Failed to validate " +:+ name datatype +:+ " rule for property "
       +:+ quote +:+ property +:+ quote +:+ " with values: "
       +:+ join ", " values +:+ ". " +:+ error)
    {| Out := T; datatype := datatype; property := property;
       values := values; error := error |}.

(** ** The facade

    What the closure returned by [safeSearchParams] captures: the
    [URLSearchParams], never modified, and the [Map] that caches
    [getAll]. *)
Record TSafeSearchParams : Type := {
  urlSearchParams : URLSearchParams.t;
  cache : gmap string (list string);
}.

(** [init] is the list of pairs that [new URLSearchParams(init)] holds. *)
Definition safeSearchParams (init : URLSearchParams.t) : TSafeSearchParams :=
  {| urlSearchParams := init; cache := ∅ |}.

(** A method that may fill the cache: it returns its result and the
    facade as the call leaves it. *)
Definition Method (A : Type) : Type :=
  TSafeSearchParams -> A * TSafeSearchParams.

#[export] Instance Method_ret : MRet Method := fun A a self => (a, self).
#[export] Instance Method_bind : MBind Method :=
  fun A B f method self => let '(a, self') := method self in f a self'.

Definition getAllFromCache (name : string) : Method (list string) :=
  fun self =>
    match cache self !! name with
    | Some all => (all, self)
    | None =>
        let all := URLSearchParams.getAll name (urlSearchParams self) in
        (all, {| urlSearchParams := urlSearchParams self;
                 cache := <[name := all]> (cache self) |})
    end.

Definition getInternal {Out} (name : string) (type : TDatatype Out)
  : Method (TDtParseOutput Out) :=
  all ← getAllFromCache name;
  let parsed := parse type all in
  mret parsed.

Definition get {Out} (name : string) (type : TDatatype Out)
  : Method (option Out) :=
  parsed ← getInternal name type;
  match parsed with
  | Valid value => mret (Some value)
  | Invalid _ => mret None
  end.

Definition getOrThrow {Out} (name : string) (type : TDatatype Out)
  : Method (Completion Out) :=
  parsed ← getInternal name type;
  match parsed with
  | Invalid error =>
      all ← getAllFromCache name;
      mret (Throw (createSafeSearchParamsErreur name type all error))
  | Valid value => mret (Return value)
  end.

Definition has {Out} (name : string) (type : TDatatype Out) : Method bool :=
  all ← getAllFromCache name;
  match all with
  | [] => mret false
  | _ =>
      let parsed := parse type all in
      mret (valid parsed)
  end.

Definition append {T} (name : string) (type : TDatatype T) (value : T)
    (self : TSafeSearchParams) : TSafeSearchParams :=
  let serialized := serialize type value in
  let nextUrlSearchParams :=
    fold_left (fun next v => URLSearchParams.append name v next)
      serialized (urlSearchParams self) in
  safeSearchParams nextUrlSearchParams.

Definition del (name : string) (self : TSafeSearchParams)
  : TSafeSearchParams :=
  let nextUrlSearchParams :=
    URLSearchParams.delete name (urlSearchParams self) in
  safeSearchParams nextUrlSearchParams.

Definition sort (self : TSafeSearchParams) : TSafeSearchParams :=
  let nextUrlSearchParams := URLSearchParams.sort (urlSearchParams self) in
  safeSearchParams nextUrlSearchParams.

(** The body of [setInternal]'s first loop, on the entry [[key, value]]
    of the original sequence; the state is [queues], whose arrays
    [shift] empties, and [nextEntries]. *)
Definition setInternal_walk
    (state : JsObject (list string) * list (string * string))
    (entry : string * string)
  : Completion (JsObject (list string) * list (string * string)) :=
  let '(queues, nextEntries) := state in
  let '(key, value) := entry in
  match get_property queues key with
  | Undefined => Return (queues, nextEntries ++ [(key, value)])
  | Own [] => Return (queues, nextEntries)
  | Own (first :: queue) =>
      Return (update_property queues key queue, nextEntries ++ [(key, first)])
  | Inherited 0 => Return (queues, nextEntries)
  | Inherited (S _) => Throw TypeError
  end.

(** The body of [setInternal]'s second loop, on an entry of [queues]. *)
Definition setInternal_remaining (nextEntries : list (string * string))
    (entry : string * list string) : list (string * string) :=
  let '(key, queue) := entry in
  fold_left (fun nextEntries value => nextEntries ++ [(key, value)])
    queue nextEntries.

Definition setInternal (values : JsObject (list string))
    (self : TSafeSearchParams) : Completion TSafeSearchParams :=
  let nextUrlSearchParams := urlSearchParams self in
  let queues :=
    Object_fromEntries
      (List.map (fun '(key, value) => (key, value)) (Object_entries values)) in
  '(queues, nextEntries) ←
    for_of setInternal_walk nextUrlSearchParams (queues, []);
  let nextEntries :=
    fold_left setInternal_remaining (Object_entries queues) nextEntries in
  mret (safeSearchParams nextEntries).

Definition set {T} (name : string) (type : TDatatype T) (value : T)
    (self : TSafeSearchParams) : Completion TSafeSearchParams :=
  let serialized := serialize type value in
  setInternal (set_property [] name serialized) self.

(** A datatype as a schema holds it, at [TDatatype<any>] ([TDtObjBase]):
    [setObj] calls its [serialize] on what the field holds, and
    [TDtObjOutput] lets every field hold [null], whatever its datatype.
    [typed] is the datatype on the values of [Out]; [serialize_null] is
    what [serialize(null)] does. *)
Record TDatatypeAny (Out : Type) : Type := {
  typed : TDatatype Out;
  serialize_null : Completion (list string);
}.
Arguments typed {Out} _.
Arguments serialize_null {Out} _.

(** [type.serialize(value)], for [value] of type [Out | null]: [None] is
    the [null] of [TDtObjOutput]. *)
Definition serialize_any {Out} (type : TDatatypeAny Out)
    (value : option Out) : Completion (list string) :=
  match value with
  | Some output => Return (serialize (typed type) output)
  | None => serialize_null type
  end.

(** A datatype whose [Out] has [null]: [rString], [rInteger], [rRegex],
    [rEnum]. *)
Definition nullable_any {A} (type : TDatatype (option A))
  : TDatatypeAny (option A) := {|
  typed := type;
  serialize_null := Return (serialize type None);
|}.

(** [rPresent]: [null === true] is [false]. *)
Definition rPresent_any : TDatatypeAny bool := {|
  typed := rPresent;
  serialize_null := Return [];
|}.

(** [rMultiple]: [for (const value of null)] throws, [null] is not
    iterable. *)
Definition rMultiple_any {TOut} (subType : TDatatype TOut)
  : TDatatypeAny (list TOut) := {|
  typed := rMultiple subType;
  serialize_null := Throw TypeError;
|}.

(** [rRequired]: [parser.serialize(null)]. *)
Definition rRequired_any {TOut} `{Nullish TOut} (parser : TDatatypeAny TOut)
  : TDatatypeAny NonNullable := {|
  typed := rRequired (typed parser);
  serialize_null := serialize_null parser;
|}.

(** The body of [setObj]'s loop, on the entry [[name, value]] of
    [values]; the state is [nextValues].  A [type] inherited from
    [Object.prototype] is not [undefined], and has no [serialize] to
    call. *)
Definition setObj_collect {Out} (obj : JsObject (TDatatypeAny Out))
    (nextValues : JsObject (list string)) (entry : string * option Out)
  : Completion (JsObject (list string)) :=
  let '(name, value) := entry in
  match get_property obj name with
  | Undefined =>
      Throw (Error ("Type for " +:+ quote +:+ name +:+ quote
                      +:+ " not found in object"))
  | Inherited _ => Throw TypeError
  | Own type =>
      serialized ← serialize_any type value;
      Return (set_property nextValues name serialized)
  end.

Definition setObj {Out} (obj : JsObject (TDatatypeAny Out))
    (values : JsObject (option Out)) (self : TSafeSearchParams)
  : Completion TSafeSearchParams :=
  nextValues ← for_of (setObj_collect obj) (Object_entries values) [];
  setInternal nextValues self.

(** [for (const item of items) body], in a method that
    may fill the cache. *)
Fixpoint for_each {A St : Type} (body : St -> A -> Method St)
    (items : list A) (state : St) : Method St :=
  match items with
  | [] => mret state
  | item :: rest => state' ← body state item; for_each body rest state'
  end.

(** The body of [getObj]'s loop, on the entry [[name, type]] of [obj];
    the state is [output]. *)
Definition getObj_field {Out} (output : JsObject (option Out))
    (field : string * TDatatype Out) : Method (JsObject (option Out)) :=
  let '(name, type) := field in
  value ← get name type;
  mret (set_property output name value).

Definition getObj {Out} (obj : JsObject (TDatatype Out))
  : Method (JsObject (option Out)) :=
  for_each getObj_field (Object_entries obj) [].

(** [getObjOrThrow]'s loop over the entries of [obj] still to visit,
    [output] being the object filled so far; the [throw] of [getOrThrow]
    leaves it. *)
Fixpoint getObjOrThrow_fields {Out} (fields : list (string * TDatatype Out))
    (output : JsObject Out) : Method (Completion (JsObject Out)) :=
  match fields with
  | [] => mret (Return output)
  | (name, type) :: rest =>
      completion ← getOrThrow name type;
      match completion with
      | Throw exception => mret (Throw exception)
      | Return value =>
          getObjOrThrow_fields rest (set_property output name value)
      end
  end.

Definition getObjOrThrow {Out} (obj : JsObject (TDatatype Out))
  : Method (Completion (JsObject Out)) :=
  getObjOrThrow_fields (Object_entries obj) [].

(** ** Notions the properties are stated with *)

(** [a] is visited before [b] when both are own properties of one
    object created in any order: array indices first and ascending. *)
Definition precedes (a b : string) : Prop :=
  match array_index a, array_index b with
  | Some i, Some j => (i < j)%N
  | Some _, None => True
  | None, Some _ => False
  | None, None => True
  end.

(** The lists that are the properties of an object: no name twice, and
    the array indices in front, ascending. *)
Definition canonical {V} (object : JsObject V) : Prop :=
  NoDup object.*1 ∧ StronglySorted precedes object.*1.

(** The facade invariant: what the cache holds for a name is what
    [getAll] finds for it. *)
Definition cache_consistent (self : TSafeSearchParams) : Prop :=
  ∀ name all,
    cache self !! name = Some all ->
    all = URLSearchParams.getAll name (urlSearchParams self).

(** [a] may stand before [b] in a sorted sequence: its name is not the
    larger one. *)
Definition name_le (a b : string * string) : Prop :=
  String.leb a.1 b.1 = true.

(** How often [key] occurs in a sequence. *)
Definition occurrences (key : string) (entries : URLSearchParams.t) : nat :=
  length (URLSearchParams.getAll key entries).

(** The merge of section 4.4 of the specification, in its words.  The
    walk: the entry for [key] that has [before] in front of it is kept
    when [values] has no [key]; it takes the new value of the same rank
    among the occurrences of [key] when there is one, and is dropped
    otherwise. *)
Fixpoint replaced (values : JsObject (list string))
    (before entries : URLSearchParams.t) : URLSearchParams.t :=
  match entries with
  | [] => []
  | (key, value) :: rest =>
      let others := replaced values (before ++ [(key, value)]) rest in
      match own_property values key with
      | None => (key, value) :: others
      | Some new =>
          match new !! occurrences key before with
          | Some v => (key, v) :: others
          | None => others
          end
      end
  end.

(** The new values left once every occurrence in [entries] has taken
    one, key after key in the iteration order of [values]. *)
Definition leftover (values : JsObject (list string))
    (entries : URLSearchParams.t) : URLSearchParams.t :=
  flat_map
    (fun '(key, new) =>
       List.map (pair key) (drop (occurrences key entries) new))
    (Object_entries values).

Definition merged (values : JsObject (list string))
    (entries : URLSearchParams.t) : URLSearchParams.t :=
  replaced values [] entries ++ leftover values entries.

(** No entry of the sequence makes [queues[key]] find a member of
    [Object.prototype]. *)
Definition no_inherited (values : JsObject (list string))
    (entries : URLSearchParams.t) : Prop :=
  ∀ key value,
    (key, value) ∈ entries ->
    own_property values key = None ->
    Object_prototype key = None.

(** The reading of "a parse failure is indistinguishable from the key
    being absent": whatever facade fails to parse [name] with [type], and
    whatever facade has no entry for [name], [get] hands the caller the
    same value. *)
Definition failure_reads_as_absence {Out} `{ToJs Out} (type : TDatatype Out)
  : Prop :=
  ∀ name failing absent,
    cache_consistent failing ->
    cache_consistent absent ->
    valid (parse type (URLSearchParams.getAll name (urlSearchParams failing)))
      = false ->
    URLSearchParams.getAll name (urlSearchParams absent) = [] ->
    to_js (get name type failing).1 = to_js (get name type absent).1.

(** The entries whose key the mapping leaves out. *)
Definition untouched (values : JsObject (list string))
    (entries : URLSearchParams.t) : URLSearchParams.t :=
  List.filter
    (fun entry => bool_decide (own_property values entry.1 = None)) entries.

(** The queues once the walk has passed the entries [before]: each has
    lost as many values as [before] has occurrences of its key. *)
Definition shifted (queues : JsObject (list string))
    (before : URLSearchParams.t) : JsObject (list string) :=
  (fun '(key, queue) => (key, drop (occurrences key before) queue))
    <$> queues.

(** An entry that [setInternal]'s walk takes for one whose queue is
    exhausted, because [queues[key]] is a function of [length] 0 that
    [Object.prototype] provides. *)
Definition lost (queues : JsObject (list string))
    (entry : string * string) : bool :=
  match get_property queues entry.1 with
  | Inherited 0 => true
  | _ => false
  end.

(** An entry at which the walk calls [shift] on a function that
    [Object.prototype] provides. *)
Definition fatal (queues : JsObject (list string))
    (entry : string * string) : bool :=
  match get_property queues entry.1 with
  | Inherited (S _) => true
  | _ => false
  end.

(** A method that leaves the facade over its sequence, with a cache
    that agrees with it. *)
Definition keeps_facade {A} (method : Method A) (S : TSafeSearchParams)
  : Prop :=
  urlSearchParams (method S).2 = urlSearchParams S
  ∧ cache_consistent (method S).2.

(** A field of [values] that [setObj]'s loop passes: the schema [obj]
    has a datatype under its name, whose [serialize] returns. *)
Definition serializes {Out} (obj : JsObject (TDatatypeAny Out))
    (field : string * option Out) : Prop :=
  ∃ type serialized,
    own_property obj field.1 = Some type
    ∧ serialize_any type field.2 = Return serialized.

(** The fields of [values] that the schema [obj] serializes, each with
    the raw values its datatype returns. *)
Definition serialized_fields {Out} (obj : JsObject (TDatatypeAny Out))
    (values : JsObject (option Out)) : list (string * list string) :=
  flat_map
    (fun '(name, value) =>
       match own_property obj name with
       | Some type =>
           match serialize_any type value with
           | Return serialized => [(name, serialized)]
           | Throw _ => []
           end
       | None => []
       end)
    (Object_entries values).

(** What [setObj] throws at a field [name] the schema lacks. *)
Definition missing_type (name : string) : Exception :=
  match Object_prototype name with
  | Some _ => TypeError
  | None =>
      Error ("Type for " +:+ quote +:+ name +:+ quote
               +:+ " not found in object")
  end.

(** * Properties *)

(** ** The datatypes *)

Section Datatypes.
Context `{JsHost}.

Lemma rMultiple_parse_valid {TOut} (subType : TDatatype TOut) input parsed :
  Forall2 (fun value v => parse subType [value] = Valid v) input parsed ->
  ∀ values, rMultiple_parse subType input values = Valid (values ++ parsed).
Proof.
  induction 1 as [|value v input parsed Hv _ IH]; intros values; simpl.
  - by rewrite app_nil_r.
  - rewrite Hv, IH. by rewrite <- app_assoc.
Qed.

Lemma rMultiple_parse_invalid {TOut} (subType : TDatatype TOut) input :
  Exists (fun value => valid (parse subType [value]) = false) input ->
  ∀ values, rMultiple_parse subType input values = Invalid "Invalid value".
Proof.
  induction 1 as [value input Hv|value input _ IH]; intros values; simpl.
  - by destruct (parse subType [value]).
  - destruct (parse subType [value]); [apply IH | done].
Qed.

Lemma all_valid_parsed {TOut} (subType : TDatatype TOut) input :
  Forall (fun value => valid (parse subType [value]) = true) input ->
  ∃ parsed,
    Forall2 (fun value v => parse subType [value] = Valid v) input parsed.
Proof.
  induction 1 as [|value input Hv _ [parsed IH]].
  - by exists [].
  - destruct (parse subType [value]) as [v|] eqn:Hp; [|done].
    exists (v :: parsed). by constructor.
Qed.

(** C6. [rMultiple(d).parse] parses each raw value on its own, as the
    one-element list that holds it: one value that [d] rejects makes the
    whole result [Invalid] (no partial list), and when [d] accepts every
    value the result is [Valid] with the parsed values in the order of
    the raw ones. *)
Theorem rMultiple_parse_each {TOut} (d : TDatatype TOut) (xs : list string) :
  (Exists (fun x => valid (parse d [x]) = false) xs ->
   parse (rMultiple d) xs = Invalid "Invalid value")
  ∧ (Forall (fun x => valid (parse d [x]) = true) xs ->
     ∃ vs, Forall2 (fun x v => parse d [x] = Valid v) xs vs
           ∧ parse (rMultiple d) xs = Valid vs).
Proof.
  split; intros Hxs.
  - by apply rMultiple_parse_invalid.
  - destruct (all_valid_parsed d xs Hxs) as [vs Hvs].
    exists vs. split; [done|].
    by apply (rMultiple_parse_valid d xs vs Hvs []).
Qed.

(** C7. Each single-valued datatype reads the first raw value only: a
    list with extra values parses as the list cut after its first
    value. *)
Theorem single_valued_first_wins (x : string) (extras : list string)
    (regex : RegExp) (values : list string) :
  parse rString (x :: extras) = parse rString [x]
  ∧ parse rInteger (x :: extras) = parse rInteger [x]
  ∧ parse rPresent (x :: extras) = parse rPresent [x]
  ∧ parse (rRegex regex) (x :: extras) = parse (rRegex regex) [x]
  ∧ parse (rEnum values) (x :: extras) = parse (rEnum values) [x].
Proof. repeat split. Qed.

End Datatypes.

Lemma rMultiple_parse_each_witness :
  (Exists (fun x => valid (parse (rEnum ["1"; "2"]) [x]) = false) ["1"; "3"]
   ∧ parse (rMultiple (rEnum ["1"; "2"])) ["1"; "3"]
     = Invalid "Invalid value")
  ∧ (Forall (fun x => valid (parse (rEnum ["1"; "2"]) [x]) = true) ["2"; "1"]
     ∧ ∃ vs,
         Forall2 (fun x v => parse (rEnum ["1"; "2"]) [x] = Valid v)
           ["2"; "1"] vs
         ∧ parse (rMultiple (rEnum ["1"; "2"])) ["2"; "1"] = Valid vs).
Proof.
  assert (Hbad : Exists
    (fun x => valid (parse (rEnum ["1"; "2"]) [x]) = false) ["1"; "3"]).
  { apply Exists_cons_tl, Exists_cons_hd. reflexivity. }
  assert (Hgood : Forall
    (fun x => valid (parse (rEnum ["1"; "2"]) [x]) = true) ["2"; "1"]).
  { repeat constructor. }
  split; (split; [assumption|]).
  - exact (proj1 (rMultiple_parse_each (rEnum ["1"; "2"]) ["1"; "3"]) Hbad).
  - exact (proj2 (rMultiple_parse_each (rEnum ["1"; "2"]) ["2"; "1"]) Hgood).
Defined.

(** ** URLSearchParams.sort *)

Lemma leb_refl (s : string) : String.leb s s = true.
Proof. by destruct (String.leb_total s s). Qed.

Lemma insert_sorted_HdRel entry low sorted :
  name_le low entry ->
  HdRel name_le low sorted ->
  HdRel name_le low (URLSearchParams.insert_sorted entry sorted).
Proof.
  intros Hle Hhd. destruct sorted as [|next rest]; simpl.
  - by constructor.
  - destruct (String.leb entry.1 next.1); constructor; [done|].
    by inversion Hhd.
Qed.

Lemma insert_sorted_Sorted entry sorted :
  Sorted name_le sorted ->
  Sorted name_le (URLSearchParams.insert_sorted entry sorted).
Proof.
  induction 1 as [|next rest Hrest IH Hhd]; simpl.
  - repeat constructor.
  - destruct (String.leb entry.1 next.1) eqn:Hle.
    + constructor; [by constructor | by constructor].
    + constructor; [done|].
      apply insert_sorted_HdRel; [|done].
      unfold name_le. destruct (String.leb_total entry.1 next.1); congruence.
Qed.

Lemma sort_Sorted pairs : Sorted name_le (URLSearchParams.sort pairs).
Proof.
  induction pairs as [|entry rest IH]; simpl.
  - constructor.
  - by apply insert_sorted_Sorted.
Qed.

Lemma sort_of_Sorted pairs :
  Sorted name_le pairs -> URLSearchParams.sort pairs = pairs.
Proof.
  induction 1 as [|entry rest Hrest IH Hhd]; simpl; [done|].
  rewrite IH. destruct Hhd as [|next rest Hle]; simpl; [done|].
  unfold name_le in Hle. by rewrite Hle.
Qed.

(** The sort moves no pair past a pair of the same name: the values of a
    name keep their order. *)
Lemma getAll_insert_sorted name entry sorted :
  URLSearchParams.getAll name (URLSearchParams.insert_sorted entry sorted)
  = URLSearchParams.getAll name (entry :: sorted).
Proof.
  induction sorted as [|[key value] rest IH]; [done|].
  destruct entry as [k v]. simpl in *.
  destruct (String.leb k key) eqn:Hle; simpl; [done|].
  rewrite IH.
  destruct (String.eqb_spec key name) as [->|]; [|done].
  destruct (String.eqb_spec k name) as [->|]; [|done].
  by rewrite leb_refl in Hle.
Qed.

Lemma getAll_sort name pairs :
  URLSearchParams.getAll name (URLSearchParams.sort pairs)
  = URLSearchParams.getAll name pairs.
Proof.
  induction pairs as [|[key value] rest IH]; [done|].
  simpl. rewrite getAll_insert_sorted. simpl. by rewrite IH.
Qed.

Lemma insert_sorted_Permutation entry sorted :
  URLSearchParams.insert_sorted entry sorted ≡ₚ entry :: sorted.
Proof.
  induction sorted as [|next rest IH]; simpl; [done|].
  destruct (String.leb entry.1 next.1); [done|].
  rewrite IH. apply Permutation_swap.
Qed.

Lemma sort_Permutation pairs : URLSearchParams.sort pairs ≡ₚ pairs.
Proof.
  induction pairs as [|entry rest IH]; simpl; [done|].
  by rewrite insert_sorted_Permutation, IH.
Qed.

(** C9. [sort] is idempotent: sorting a sorted facade gives the same
    facade, sequence and (empty) cache. *)
Theorem sort_idempotent (S : TSafeSearchParams) : sort (sort S) = sort S.
Proof.
  unfold sort, safeSearchParams. simpl. f_equal.
  apply sort_of_Sorted, sort_Sorted.
Qed.

(** ** Reads through the cache *)

Lemma safeSearchParams_consistent init :
  cache_consistent (safeSearchParams init).
Proof.
  intros name all Hcache. simpl in Hcache. by rewrite lookup_empty in Hcache.
Qed.

(** A lookup returns what [getAll] finds, and leaves a facade over the
    same sequence whose cache is consistent again. *)
Lemma getAllFromCache_getAll name S :
  cache_consistent S ->
  ∃ S', getAllFromCache name S
        = (URLSearchParams.getAll name (urlSearchParams S), S')
        ∧ urlSearchParams S' = urlSearchParams S
        ∧ cache_consistent S'.
Proof.
  intros HS. unfold getAllFromCache.
  destruct (cache S !! name) as [all|] eqn:Hcache.
  - exists S. by rewrite (HS name all Hcache).
  - eexists. split; [done|]. split; [done|].
    intros key all. simpl. rewrite lookup_insert.
    case_decide as Hkey; [|by apply HS].
    intros [= <-]. by rewrite Hkey.
Qed.

Lemma getInternal_parse {Out} name (type : TDatatype Out) S :
  cache_consistent S ->
  ∃ S', getInternal name type S
        = (parse type (URLSearchParams.getAll name (urlSearchParams S)), S')
        ∧ urlSearchParams S' = urlSearchParams S
        ∧ cache_consistent S'.
Proof.
  intros HS. destruct (getAllFromCache_getAll name S HS) as (S' & Hall & HS').
  exists S'. split; [|done].
  unfold getInternal, mbind, Method_bind. by rewrite Hall.
Qed.

Lemma get_fst {Out} name (type : TDatatype Out) S :
  cache_consistent S ->
  (get name type S).1
  = match parse type (URLSearchParams.getAll name (urlSearchParams S)) with
    | Valid value => Some value
    | Invalid _ => None
    end.
Proof.
  intros HS. destruct (getInternal_parse name type S HS) as (S' & Hget & _).
  unfold get, mbind, Method_bind. rewrite Hget.
  by destruct (parse type _).
Qed.

Lemma getOrThrow_fst {Out} name (type : TDatatype Out) S :
  cache_consistent S ->
  (getOrThrow name type S).1
  = let all := URLSearchParams.getAll name (urlSearchParams S) in
    match parse type all with
    | Valid value => Return value
    | Invalid reason =>
        Throw (createSafeSearchParamsErreur name type all reason)
    end.
Proof.
  intros HS.
  destruct (getInternal_parse name type S HS) as (S' & Hget & Husp & HS').
  unfold getOrThrow, mbind, Method_bind. rewrite Hget. simpl.
  destruct (parse type _) as [value|reason]; [done|].
  destruct (getAllFromCache_getAll name S' HS') as (S'' & Hall & _).
  unfold mbind, Method_bind. rewrite Hall, Husp. done.
Qed.

Lemma has_fst {Out} name (type : TDatatype Out) S :
  cache_consistent S ->
  (has name type S).1
  = match URLSearchParams.getAll name (urlSearchParams S) with
    | [] => false
    | all => valid (parse type all)
    end.
Proof.
  intros HS. destruct (getAllFromCache_getAll name S HS) as (S' & Hall & _).
  unfold has, mbind, Method_bind. rewrite Hall.
  by destruct (URLSearchParams.getAll name _).
Qed.

(** A read leaves a facade over the same sequence, with a consistent
    cache. *)
Lemma get_consistent {Out} name (type : TDatatype Out) S :
  cache_consistent S ->
  urlSearchParams (get name type S).2 = urlSearchParams S
  ∧ cache_consistent (get name type S).2.
Proof.
  intros HS. destruct (getInternal_parse name type S HS) as (S' & Hget & HS').
  unfold get, mbind, Method_bind. rewrite Hget.
  by destruct (parse type _).
Qed.

Lemma getOrThrow_consistent {Out} name (type : TDatatype Out) S :
  cache_consistent S ->
  urlSearchParams (getOrThrow name type S).2 = urlSearchParams S
  ∧ cache_consistent (getOrThrow name type S).2.
Proof.
  intros HS.
  destruct (getInternal_parse name type S HS) as (S' & Hget & Husp & HS').
  unfold getOrThrow, mbind, Method_bind. rewrite Hget.
  destruct (parse type _) as [value|reason]; [done|].
  destruct (getAllFromCache_getAll name S' HS') as (S'' & Hall & Husp' & HS'').
  unfold mbind, Method_bind. rewrite Hall. simpl. by rewrite Husp', Husp.
Qed.

Lemma has_consistent {Out} name (type : TDatatype Out) S :
  cache_consistent S ->
  urlSearchParams (has name type S).2 = urlSearchParams S
  ∧ cache_consistent (has name type S).2.
Proof.
  intros HS. destruct (getAllFromCache_getAll name S HS) as (S' & Hall & HS').
  unfold has, mbind, Method_bind. rewrite Hall.
  by destruct (URLSearchParams.getAll name _).
Qed.

(** C3. [getOrThrow] throws exactly when the datatype rejects the raw
    values stored under the name; the error then carries the name, the
    datatype, those raw values and the reason, under the message
    [Failed to validate <datatype> rule for property "<name>" with
    values: <values joined by ", ">. <reason>].  On [Valid] the parsed
    value is returned, [null] included: [rString] reads an absent name as
    [null] and [getOrThrow] returns it. *)
Theorem getOrThrow_throws_iff_invalid {Out} (property : string)
    (type : TDatatype Out) (S : TSafeSearchParams) :
  cache_consistent S ->
  let all := URLSearchParams.getAll property (urlSearchParams S) in
  ((∃ exception, (getOrThrow property type S).1 = Throw exception)
   ↔ (∃ reason, parse type all = Invalid reason))
  ∧ (∀ reason,
       parse type all = Invalid reason ->
       (getOrThrow property type S).1
       = Throw (SafeSearchParamsErreur
           ("Failed to validate " +:+ type.(name)
              +:+ " rule for property " +:+ quote +:+ property +:+ quote
              +:+ " with values: " +:+ join ", " all +:+ ". " +:+ reason)
           {| Out := Out; datatype := type; property := property;
              values := all; error := reason |}))
  ∧ (∀ value,
       parse type all = Valid value ->
       (getOrThrow property type S).1 = Return value)
  ∧ (all = [] -> (getOrThrow property rString S).1 = Return None).
Proof.
  intros HS all. rewrite !getOrThrow_fst by done. cbv zeta. fold all.
  repeat split.
  - intros [exception Hthrow].
    destruct (parse type all) as [value|reason]; [done | by exists reason].
  - intros [reason ->]. by eexists.
  - by intros reason ->.
  - by intros value ->.
  - by intros ->.
Qed.

(** C5. [has] answers [true] exactly when the name has a raw value and
    the datatype accepts the list of its raw values; a name without
    entry gives [false] whatever the datatype accepts. *)
Theorem has_iff_present_and_valid {Out} (name : string)
    (type : TDatatype Out) (S : TSafeSearchParams) :
  cache_consistent S ->
  let all := URLSearchParams.getAll name (urlSearchParams S) in
  ((has name type S).1 = true ↔ all ≠ [] ∧ valid (parse type all) = true)
  ∧ (all = [] -> (has name type S).1 = false).
Proof.
  intros HS all. rewrite has_fst by done. fold all.
  split.
  - destruct all as [|first rest].
    { split; [done | by intros [Hne _]]. }
    split; [intros Hvalid; by rewrite Hvalid | by intros [_ Hvalid]].
  - by intros ->.
Qed.

Lemma getOrThrow_throws_iff_invalid_witness :
  let S := safeSearchParams [("a", "1"); ("b", "2"); ("c", "hey")] in
  cache_consistent S
  ∧ (getOrThrow "c" (rEnum ["1"; "2"]) S).1
    = Throw (SafeSearchParamsErreur
        ("Failed to validate Enum<1 | 2> rule for property "
           +:+ quote +:+ "c" +:+ quote +:+ " with values: hey. Invalid value")
        {| Out := option string; datatype := rEnum ["1"; "2"];
           property := "c"; values := ["hey"]; error := "Invalid value" |})
  ∧ (getOrThrow "a" (rEnum ["1"; "2"]) S).1 = Return (Some "1")
  ∧ (getOrThrow "d" rString S).1 = Return None.
Proof.
  intros S.
  assert (HS : cache_consistent S).
  { intros name all Hcache. simpl in Hcache.
    rewrite lookup_empty in Hcache. discriminate. }
  split; [exact HS|].
  split; [|split].
  - apply (proj1 (proj2
      (getOrThrow_throws_iff_invalid "c" (rEnum ["1"; "2"]) S HS))
      "Invalid value").
    reflexivity.
  - apply (proj1 (proj2 (proj2
      (getOrThrow_throws_iff_invalid "a" (rEnum ["1"; "2"]) S HS)))
      (Some "1")).
    reflexivity.
  - apply (proj2 (proj2 (proj2
      (getOrThrow_throws_iff_invalid "d" rString S HS)))).
    reflexivity.
Defined.

Lemma has_iff_present_and_valid_witness :
  let S := safeSearchParams [("a", "1"); ("b", "2"); ("c", "hey")] in
  cache_consistent S
  ∧ (has "a" (rEnum ["1"; "2"]) S).1 = true
  ∧ (has "d" rPresent S).1 = false.
Proof.
  intros S.
  assert (HS : cache_consistent S).
  { intros name all Hcache. simpl in Hcache.
    rewrite lookup_empty in Hcache. discriminate. }
  split; [exact HS|]. split.
  - apply (proj1 (has_iff_present_and_valid "a" (rEnum ["1"; "2"]) S HS)).
    split; [discriminate | reflexivity].
  - apply (proj2 (has_iff_present_and_valid "d" rPresent S HS)).
    reflexivity.
Defined.

(** ** What [get] returns *)

Lemma get_null_of_invalid {Out} `{ToJs Out} name (type : TDatatype Out) S :
  cache_consistent S ->
  valid (parse type (URLSearchParams.getAll name (urlSearchParams S)))
    = false ->
  to_js (get name type S).1 = JNull.
Proof.
  intros HS Hinvalid. rewrite get_fst by done.
  by destruct (parse type _).
Qed.

Lemma failure_reads_as_absence_of_null {Out} `{ToJs Out}
    (type : TDatatype Out) (v : Out) :
  parse type [] = Valid v -> to_js v = JNull ->
  failure_reads_as_absence type.
Proof.
  intros Hempty Hnull name failing absent Hfailing Habsent Hinvalid Hnone.
  rewrite (get_null_of_invalid name type failing) by done.
  rewrite get_fst by done. by rewrite Hnone, Hempty.
Qed.

(** C4, as the code has it.  [get] returns the parsed value when the
    datatype accepts the raw values of the name and [null] when it
    rejects them; the caller cannot tell such a failure from an absent
    name whenever the datatype reads the empty list as [null]. *)
Theorem get_valid_or_null {Out} `{ToJs Out} (name : string)
    (type : TDatatype Out) (S : TSafeSearchParams) :
  cache_consistent S ->
  let all := URLSearchParams.getAll name (urlSearchParams S) in
  (∀ value, parse type all = Valid value -> (get name type S).1 = Some value)
  ∧ (∀ reason,
       parse type all = Invalid reason ->
       (get name type S).1 = None ∧ to_js (get name type S).1 = JNull)
  ∧ (∀ v, parse type [] = Valid v -> to_js v = JNull ->
       failure_reads_as_absence type).
Proof.
  intros HS all. rewrite !get_fst by done. fold all.
  split; [by intros value ->|]. split; [by intros reason ->|].
  apply failure_reads_as_absence_of_null.
Qed.

Lemma get_valid_or_null_witness :
  let S := safeSearchParams [("a", "1"); ("b", "2"); ("c", "hey")] in
  cache_consistent S
  ∧ (get "a" (rEnum ["1"; "2"]) S).1 = Some (Some "1")
  ∧ (get "c" (rEnum ["1"; "2"]) S).1 = None
  ∧ failure_reads_as_absence (rEnum ["1"; "2"]).
Proof.
  intros S.
  assert (HS : cache_consistent S).
  { intros name all Hcache. simpl in Hcache.
    rewrite lookup_empty in Hcache. discriminate. }
  split; [exact HS|].
  split; [|split].
  - apply (proj1 (get_valid_or_null "a" (rEnum ["1"; "2"]) S HS)).
    reflexivity.
  - apply (proj1 (proj2 (get_valid_or_null "c" (rEnum ["1"; "2"]) S HS))
      "Invalid value").
    reflexivity.
  - apply (proj2 (proj2 (get_valid_or_null "c" (rEnum ["1"; "2"]) S HS))
      None); reflexivity.
Defined.

(** C4, as the specification words it, fails: [rMultiple] rejects
    [tag=x] for an enumeration without [x], which [get] reports as
    [null], and reads a sequence without [tag] as the empty array. *)
Lemma get_failure_differs_from_absence :
  let type := rMultiple (rEnum ["1"]) in
  let failing := safeSearchParams [("tag", "x")] in
  let absent := safeSearchParams [] in
  valid (parse type (URLSearchParams.getAll "tag" (urlSearchParams failing)))
    = false
  ∧ URLSearchParams.getAll "tag" (urlSearchParams absent) = []
  ∧ to_js (get "tag" type failing).1 = JNull
  ∧ to_js (get "tag" type absent).1 = JArr []
  ∧ ¬ failure_reads_as_absence type.
Proof.
  repeat split. intros Hsame.
  specialize (Hsame "tag" (safeSearchParams [("tag", "x")])
    (safeSearchParams []) (safeSearchParams_consistent _)
    (safeSearchParams_consistent _) eq_refl eq_refl).
  discriminate Hsame.
Qed.

(** C10, as the code has it.  [rMultiple(d)] reads the empty list as the
    empty array, so [get] returns the empty array, not [null], for a name
    without entry; for such a name [rString], [rInteger], [rRegex] and
    [rEnum] give [null], and [rPresent] gives [false]. *)
Theorem absent_key_reads `{JsHost} {TOut} `{ToJs TOut} (d : TDatatype TOut)
    (name : string) (regex : RegExp) (values : list string)
    (S : TSafeSearchParams) :
  cache_consistent S ->
  URLSearchParams.getAll name (urlSearchParams S) = [] ->
  parse (rMultiple d) [] = Valid []
  ∧ (get name (rMultiple d) S).1 = Some []
  ∧ to_js (get name (rMultiple d) S).1 = JArr []
  ∧ to_js (get name rString S).1 = JNull
  ∧ to_js (get name rInteger S).1 = JNull
  ∧ to_js (get name (rRegex regex) S).1 = JNull
  ∧ to_js (get name (rEnum values) S).1 = JNull
  ∧ to_js (get name rPresent S).1 = JBool false.
Proof.
  intros HS Habsent. rewrite !get_fst by done. rewrite Habsent.
  repeat split.
Qed.

(** C10, as the specification words it, fails on [rPresent], a
    single-valued datatype that reads a name without entry as [false]. *)
Lemma rPresent_absent_is_not_null :
  URLSearchParams.getAll "d" [("a", "1"); ("b", "2"); ("c", "hey")] = []
  ∧ to_js (get "d" rPresent
             (safeSearchParams [("a", "1"); ("b", "2"); ("c", "hey")])).1
    ≠ JNull.
Proof. split; [reflexivity | discriminate]. Qed.

Lemma absent_key_reads_witness :
  let host := {| parseInt := fun _ _ => S754_nan;
                 toFixed := fun _ => "NaN";
                 RegExp := string;
                 RegExp_source := fun regex => regex;
                 RegExp_test := String.eqb |} in
  let S := safeSearchParams [("a", "1"); ("b", "2"); ("c", "hey")] in
  cache_consistent S
  ∧ URLSearchParams.getAll "tag" (urlSearchParams S) = []
  ∧ to_js (get "tag" (rMultiple rString) S).1 = JArr []
  ∧ to_js (get "tag" rInteger S).1 = JNull
  ∧ to_js (get "tag" rPresent S).1 = JBool false.
Proof.
  intros host S.
  assert (HS : cache_consistent S).
  { intros name all Hcache. simpl in Hcache.
    rewrite lookup_empty in Hcache. discriminate. }
  split; [exact HS|]. split; [reflexivity|].
  pose proof (absent_key_reads (H := host) rString "tag" "x" [] S HS eq_refl)
    as (_ & _ & Hmultiple & _ & Hinteger & _ & _ & Hpresent).
  exact (conj Hmultiple (conj Hinteger Hpresent)).
Defined.

(** ** setObj *)

Lemma setObj_collect_missing {Out} (obj : JsObject (TDatatypeAny Out))
    nextValues name value :
  own_property obj name = None ->
  setObj_collect obj nextValues (name, value) = Throw (missing_type name).
Proof.
  intros Hmissing. unfold setObj_collect, get_property, missing_type.
  rewrite Hmissing. by destruct (Object_prototype name).
Qed.

Lemma setObj_collect_found {Out} (obj : JsObject (TDatatypeAny Out))
    nextValues name value type :
  own_property obj name = Some type ->
  setObj_collect obj nextValues (name, value)
  = (serialized ← serialize_any type value;
     Return (set_property nextValues name serialized)).
Proof.
  intros Hfound. unfold setObj_collect, get_property. by rewrite Hfound.
Qed.

Lemma serialized_fields_cons {Out} (obj : JsObject (TDatatypeAny Out))
    name value rest type serialized :
  own_property obj name = Some type ->
  serialize_any type value = Return serialized ->
  serialized_fields obj ((name, value) :: rest)
  = (name, serialized) :: serialized_fields obj rest.
Proof.
  intros Htype Hserialized. unfold serialized_fields, Object_entries.
  simpl. by rewrite Htype, Hserialized.
Qed.

(** The loop defines the serialized fields one after the other, as far
    as the schema serializes them. *)
Lemma setObj_collect_first {Out} (obj : JsObject (TDatatypeAny Out))
    (before rest : list (string * option Out)) :
  Forall (serializes obj) before ->
  ∀ nextValues,
    for_of (setObj_collect obj) (before ++ rest) nextValues
    = for_of (setObj_collect obj) rest
        (fold_left (fun object entry => set_property object entry.1 entry.2)
           (serialized_fields obj before) nextValues).
Proof.
  induction 1 as [|[name value] before (type & serialized & Htype & Hvalue) _ IH];
    intros nextValues.
  { done. }
  simpl in Htype, Hvalue. rewrite <- app_comm_cons. cbn [for_of].
  rewrite (setObj_collect_found obj nextValues name value type Htype).
  rewrite Hvalue. cbn [mbind Completion_bind]. rewrite IH.
  by rewrite (serialized_fields_cons obj name value before type serialized).
Qed.

Lemma setObj_collect_all {Out} (obj : JsObject (TDatatypeAny Out))
    (values : list (string * option Out)) :
  Forall (serializes obj) values ->
  ∀ nextValues,
    for_of (setObj_collect obj) values nextValues
    = Return
        (fold_left (fun object entry => set_property object entry.1 entry.2)
           (serialized_fields obj values) nextValues).
Proof.
  intros Hfields nextValues.
  rewrite <- (app_nil_r values) at 1.
  by rewrite (setObj_collect_first obj values [] Hfields).
Qed.

(** The loop returns for no other fields. *)
Lemma setObj_collect_Return {Out} (obj : JsObject (TDatatypeAny Out))
    (values : list (string * option Out)) :
  ∀ nextValues result,
    for_of (setObj_collect obj) values nextValues = Return result ->
    Forall (serializes obj) values.
Proof.
  induction values as [|[name value] rest IH]; intros nextValues result.
  { constructor. }
  cbn [for_of]. destruct (own_property obj name) as [type|] eqn:Hname.
  - rewrite (setObj_collect_found obj nextValues name value type Hname).
    destruct (serialize_any type value) as [serialized|exception] eqn:Hvalue;
      [|done].
    cbn [mbind Completion_bind]. intros Hrest. constructor.
    + by exists type, serialized.
    + by apply IH in Hrest.
  - by rewrite setObj_collect_missing.
Qed.

(** X25. What [setObj] does, field by field.  It stops at the first
    field that the schema does not serialize, before any update: with
    the [Error] that names the field when the schema has no datatype for
    it (the [TypeError] of the call of [serialize] when the name is one
    of [Object.prototype]), with what [serialize] throws otherwise.
    When the schema serializes every field, the serialized fields go to
    the merge as one mapping. *)
Theorem setObj_outcome {Out} (obj : JsObject (TDatatypeAny Out))
    (values : JsObject (option Out)) (S : TSafeSearchParams) :
  (∀ before name value after,
     Object_entries values = before ++ (name, value) :: after ->
     Forall (serializes obj) before ->
     (own_property obj name = None ->
      setObj obj values S = Throw (missing_type name))
     ∧ (∀ type exception,
          own_property obj name = Some type ->
          serialize_any type value = Throw exception ->
          setObj obj values S = Throw exception))
  ∧ (Forall (serializes obj) (Object_entries values) ->
     setObj obj values S
     = setInternal (Object_fromEntries (serialized_fields obj values)) S).
Proof.
  split.
  - intros before name value after Hvalues Hbefore. unfold setObj.
    rewrite Hvalues, (setObj_collect_first obj before _ Hbefore).
    cbn [for_of]. split.
    + intros Hmissing. by rewrite setObj_collect_missing.
    + intros type exception Htype Hthrow.
      rewrite (setObj_collect_found obj _ name value type Htype).
      by rewrite Hthrow.
  - intros Hfields. unfold setObj.
    by rewrite (setObj_collect_all obj _ Hfields []).
Qed.

Lemma setObj_outcome_witness :
  let S := safeSearchParams [("a", "1"); ("tags", "x"); ("c", "hey")] in
  let obj := [("a", rMultiple_any rString); ("tags", rMultiple_any rString)] in
  Forall (serializes obj) [("a", Some [Some "3"])]
  ∧ Forall (serializes obj) [("a", Some [Some "3"]); ("tags", Some [])]
  ∧ setObj obj [("a", Some [Some "3"]); ("d", None)] S
    = Throw (missing_type "d")
  ∧ setObj obj [("a", Some [Some "3"]); ("tags", None)] S = Throw TypeError
  ∧ setObj obj [("a", Some [Some "3"]); ("tags", Some [])] S
    = setInternal [("a", ["3"]); ("tags", [])] S.
Proof.
  intros S obj.
  assert (Ha : serializes obj ("a", Some [Some "3"])).
  { exists (rMultiple_any rString), ["3"]. split; reflexivity. }
  assert (Htags : serializes obj ("tags", Some [])).
  { exists (rMultiple_any rString), []. split; reflexivity. }
  assert (Hbefore : Forall (serializes obj) [("a", Some [Some "3"])]).
  { constructor; [exact Ha|constructor]. }
  assert (Hall : Forall (serializes obj)
                   [("a", Some [Some "3"]); ("tags", Some [])]).
  { constructor; [exact Ha|]. constructor; [exact Htags|constructor]. }
  split; [exact Hbefore|]. split; [exact Hall|]. split; [|split].
  - exact (proj1 (proj1 (setObj_outcome obj
                           [("a", Some [Some "3"]); ("d", None)] S)
                    [("a", Some [Some "3"])] "d" None [] eq_refl Hbefore)
             eq_refl).
  - exact (proj2 (proj1 (setObj_outcome obj
                           [("a", Some [Some "3"]); ("tags", None)] S)
                    [("a", Some [Some "3"])] "tags" None [] eq_refl Hbefore)
             (rMultiple_any rString) TypeError eq_refl eq_refl).
  - exact (proj2 (setObj_outcome obj
                    [("a", Some [Some "3"]); ("tags", Some [])] S) Hall).
Defined.

(** X26. A field for which the schema has no datatype always makes
    [setObj] throw, whatever the other fields: no facade is returned. *)
Theorem setObj_missing_type_throws {Out} (obj : JsObject (TDatatypeAny Out))
    (values : JsObject (option Out)) (S : TSafeSearchParams) :
  Exists (fun field => own_property obj field.1 = None)
    (Object_entries values) ->
  ∃ exception, setObj obj values S = Throw exception.
Proof.
  intros Hmissing. destruct (setObj obj values S) as [S'|exception] eqn:Hset.
  - unfold setObj in Hset.
    destruct (for_of (setObj_collect obj) (Object_entries values) [])
      as [nextValues|] eqn:Hcollect; [|done].
    apply setObj_collect_Return in Hcollect.
    apply Exists_exists in Hmissing as (field & Hin & Hnone).
    apply (proj1 (Forall_forall _ _) Hcollect) in Hin
      as (type & _ & Htype & _).
    congruence.
  - by exists exception.
Qed.

Lemma setObj_missing_type_throws_witness :
  let S := safeSearchParams [("a", "1"); ("c", "hey")] in
  let obj := [("a", rMultiple_any rString)] in
  Exists (fun field : string * option (list (option string)) =>
            own_property obj field.1 = None)
    [("a", None); ("d", Some [])]
  ∧ ∃ exception, setObj obj [("a", None); ("d", Some [])] S = Throw exception.
Proof.
  intros S obj.
  assert (Hmissing : Exists
            (fun field : string * option (list (option string)) =>
               own_property obj field.1 = None)
            [("a", None); ("d", Some [])]).
  { apply Exists_cons_tl, Exists_cons_hd. reflexivity. }
  split; [exact Hmissing|].
  exact (setObj_missing_type_throws obj [("a", None); ("d", Some [])] S
           Hmissing).
Defined.

(** On the values of [Out], the datatypes of the library are themselves
    in a schema; on [null], the ones whose [Out] has [null] serialize it
    as that value, [rPresent] as [false], and [rMultiple] throws. *)
Lemma serialize_any_library `{JsHost} {A TOut} (type : TDatatype (option A))
    (subType : TDatatype TOut) (regex : RegExp) (values : list string) :
  serialize_any (nullable_any type) None
  = serialize_any (nullable_any type) (Some None)
  ∧ serialize_any (nullable_any rString) None = Return []
  ∧ serialize_any (nullable_any rInteger) None = Return []
  ∧ serialize_any (nullable_any (rRegex regex)) None = Return []
  ∧ serialize_any (nullable_any (rEnum values)) None = Return []
  ∧ serialize_any rPresent_any None = Return []
  ∧ serialize_any (rMultiple_any subType) None = Throw TypeError
  ∧ serialize_any (rRequired_any (rMultiple_any subType)) None
    = Throw TypeError
  ∧ serialize_any (rRequired_any (nullable_any rString)) None = Return [].
Proof. repeat split. Qed.

(** C8, where the code departs from it.  The schema has a datatype for
    the one field of [{tags: null}], a value that [TDtObjOutput] allows
    for every field, and [setObj] throws: [rMultiple]'s [serialize]
    iterates over [null].  Nothing is submitted to the merge, which for
    [{tags: []}] removes the entries of [tags].  With a further field
    that the schema lacks, the exception is that [TypeError], not the
    [Error] that names the field. *)
Theorem setObj_null_array_throws :
  let S := safeSearchParams [("tags", "a"); ("q", "1")] in
  let obj := [("tags", rMultiple_any rString)] in
  Forall (fun field : string * option (list (option string)) =>
            is_Some (own_property obj field.1))
    [("tags", None)]
  ∧ setObj obj [("tags", None)] S = Throw TypeError
  ∧ setObj obj [("tags", Some [])] S = Return (safeSearchParams [("q", "1")])
  ∧ setObj obj [("tags", None); ("page", None)] S = Throw TypeError
  ∧ setObj obj [("page", None); ("tags", None)] S
    = Throw (Error ("Type for " +:+ quote +:+ "page" +:+ quote
                      +:+ " not found in object")).
Proof.
  intros S obj. split.
  { repeat constructor. eexists. reflexivity. }
  repeat split.
Qed.

(** ** Objects *)

Section ObjectLemmas.
Context {V : Type}.
Implicit Types (object : JsObject V) (key : string) (value : V).

Lemma own_property_None object key :
  own_property object key = None ↔ key ∉ object.*1.
Proof.
  induction object as [|[k v] rest IH]; simpl.
  - split; [intros _; apply not_elem_of_nil | done].
  - rewrite not_elem_of_cons, <- IH.
    destruct (String.eqb_spec k key) as [->|Hne].
    + split; [done | by intros [Hne _]].
    + split; [intros Hrest; split; [congruence | done] | by intros [_ Hrest]].
Qed.

Lemma own_property_Some_elem object key value :
  own_property object key = Some value -> (key, value) ∈ object.
Proof.
  induction object as [|[k v] rest IH]; simpl; [done|].
  destruct (String.eqb_spec k key) as [->|Hne].
  - intros [= ->]. apply elem_of_cons. by left.
  - intros Hrest. apply elem_of_cons. right. by apply IH.
Qed.

Lemma own_property_app object key k value :
  own_property (object ++ [(k, value)]) key
  = match own_property object key with
    | Some v => Some v
    | None => if decide (k = key) then Some value else None
    end.
Proof.
  induction object as [|[k' v'] rest IH]; simpl.
  - destruct (String.eqb_spec k key); by case_decide.
  - by destruct (String.eqb k' key).
Qed.

Lemma own_property_update object key k value :
  own_property (update_property object k value) key
  = if decide (k = key) then (fun _ => value) <$> own_property object k
    else own_property object key.
Proof.
  induction object as [|[k' v'] rest IH]; simpl.
  - by case_decide.
  - destruct (String.eqb_spec k' k) as [->|Hne]; simpl.
    + destruct (String.eqb_spec k key) as [->|Hne']; by case_decide.
    + rewrite IH. destruct (String.eqb_spec k' key) as [->|Hne'].
      * by rewrite decide_False by done.
      * done.
Qed.

Lemma update_property_keys object key value :
  (update_property object key value).*1 = object.*1.
Proof.
  induction object as [|[k v] rest IH]; simpl; [done|].
  destruct (String.eqb k key); [done|].
  rewrite !fmap_cons. by rewrite IH.
Qed.

Lemma update_property_same object key value :
  own_property object key = Some value ->
  update_property object key value = object.
Proof.
  induction object as [|[k v] rest IH]; simpl; [done|].
  destruct (String.eqb k key).
  - by intros [= ->].
  - intros Hrest. by rewrite IH.
Qed.

Lemma create_index_Permutation object index key value :
  create_index object index key value ≡ₚ (key, value) :: object.
Proof.
  induction object as [|[k v] rest IH]; simpl; [done|].
  destruct (array_index k) as [i|]; [|done].
  destruct (i <? index)%N; [|done].
  rewrite IH. apply Permutation_swap.
Qed.

Lemma own_property_create_index object index key k value :
  own_property object k = None ->
  own_property (create_index object index k value) key
  = if decide (k = key) then Some value else own_property object key.
Proof.
  induction object as [|[k' v'] rest IH]; simpl.
  - intros _. destruct (String.eqb_spec k key); by case_decide.
  - destruct (String.eqb_spec k' k) as [->|Hne]; [done|]. intros Hrest.
    assert (Hhere : own_property ((k, value) :: (k', v') :: rest) key
                    = if decide (k = key) then Some value
                      else own_property ((k', v') :: rest) key).
    { simpl. destruct (String.eqb_spec k key); by case_decide. }
    destruct (array_index k') as [i|]; [|exact Hhere].
    destruct (i <? index)%N; [|exact Hhere].
    simpl. rewrite IH by done.
    destruct (String.eqb_spec k' key) as [->|Hne'].
    + by rewrite decide_False by done.
    + done.
Qed.

(** After [object[k] = value], [object[k]] is [value] and the other
    properties are as before. *)
Lemma own_property_set object key k value :
  own_property (set_property object k value) key
  = if decide (k = key) then Some value else own_property object key.
Proof.
  unfold set_property.
  destruct (own_property object k) as [old|] eqn:Hold.
  - rewrite own_property_update, Hold. by case_decide.
  - destruct (array_index k) as [index|].
    + by apply own_property_create_index.
    + rewrite own_property_app.
      case_decide as Hkey; [by rewrite <- Hkey, Hold|].
      by destruct (own_property object key).
Qed.

Lemma set_property_NoDup object key value :
  NoDup object.*1 -> NoDup (set_property object key value).*1.
Proof.
  intros Hnodup. unfold set_property.
  destruct (own_property object key) as [old|] eqn:Hold.
  - by rewrite update_property_keys.
  - apply own_property_None in Hold.
    destruct (array_index key) as [index|].
    + rewrite (create_index_Permutation object index key value).
      simpl. by apply NoDup_cons.
    + rewrite fmap_app. simpl. apply NoDup_app. split; [done|].
      split; [|apply NoDup_singleton].
      intros k Hin Hk. apply list_elem_of_singleton in Hk. by subst.
Qed.

Lemma fold_set_property_NoDup (entries : list (string * V)) object :
  NoDup object.*1 ->
  NoDup (fold_left (fun object entry => set_property object entry.1 entry.2)
           entries object).*1.
Proof.
  revert object.
  induction entries as [|[key value] rest IH]; intros object Hnodup; simpl.
  - done.
  - by apply IH, set_property_NoDup.
Qed.

Lemma Object_fromEntries_NoDup (entries : list (string * V)) :
  NoDup (Object_fromEntries entries).*1.
Proof. apply fold_set_property_NoDup, NoDup_nil_2. Qed.

End ObjectLemmas.

(** ** The order of the properties of an object *)

(** An array index has one spelling. *)
Lemma digit_bound c d :
  digit c = Some d -> (d <= 9)%N ∧ N_of_ascii c = (d + 48)%N.
Proof.
  unfold digit.
  destruct ((48 <=? N_of_ascii c)%N && (N_of_ascii c <=? 57)%N) eqn:Hrange;
    [|done].
  apply andb_true_iff in Hrange as [Hlow Hhigh].
  apply N.leb_le in Hlow, Hhigh. intros [= <-]. lia.
Qed.

Lemma digit_inj c c' d : digit c = Some d -> digit c' = Some d -> c = c'.
Proof.
  intros [_ Hc]%digit_bound [_ Hc']%digit_bound.
  rewrite <- (ascii_N_embedding c), <- (ascii_N_embedding c'). congruence.
Qed.

Lemma decimal_bounds s :
  ∀ acc n, decimal s acc = Some n ->
    (acc * 10 ^ N.of_nat (String.length s) <= n
     ∧ n < (acc + 1) * 10 ^ N.of_nat (String.length s))%N.
Proof.
  induction s as [|c rest IH]; intros acc n; simpl decimal.
  - intros [= <-]. simpl. lia.
  - destruct (digit c) as [d|] eqn:Hd; [|done]. intros Hrest.
    apply IH in Hrest. apply digit_bound in Hd as [Hd _].
    cbn [String.length]. rewrite Nat2N.inj_succ, N.pow_succ_r'.
    nia.
Qed.

Lemma decimal_inj s :
  ∀ s' acc n, String.length s = String.length s' ->
    decimal s acc = Some n -> decimal s' acc = Some n -> s = s'.
Proof.
  induction s as [|c rest IH]; intros [|c' rest'] acc n Hlen; try done.
  simpl. destruct (digit c) as [d|] eqn:Hd; [|done].
  destruct (digit c') as [d'|] eqn:Hd'; [|done]. intros Hn Hn'.
  injection Hlen as Hlen.
  pose proof (decimal_bounds _ _ _ Hn) as Hb.
  pose proof (decimal_bounds _ _ _ Hn') as Hb'.
  rewrite <- Hlen in Hb'.
  assert (d = d') as <-.
  { pose proof (N.pow_nonzero 10 (N.of_nat (String.length rest))).
    nia. }
  f_equal; [by eapply digit_inj | by eapply IH].
Qed.

Lemma array_index_length key n :
  array_index key = Some n ->
  (n = 0%N ∧ key = "0")
  ∨ (10 ^ N.of_nat (pred (String.length key)) <= n
     ∧ n < 10 ^ N.of_nat (String.length key))%N.
Proof.
  destruct key as [|first rest]; [done|]. unfold array_index.
  destruct (Ascii.eqb_spec first "0") as [->|Hfirst]; simpl andb.
  - destruct (String.eqb_spec rest EmptyString) as [->|Hrest]; [|done].
    simpl. intros [= <-]. by left.
  - simpl decimal. destruct (digit first) as [d|] eqn:Hd; [|done].
    destruct (decimal rest (10 * 0 + d)) as [m|] eqn:Hm; [|done].
    destruct (m <=? 4294967294)%N; [|done]. intros [= <-]. right.
    apply decimal_bounds in Hm. pose proof (digit_bound _ _ Hd) as [Hle Hcode].
    assert (Hd0 : d ≠ 0%N).
    { intros ->. apply Hfirst.
      rewrite <- (ascii_N_embedding first), Hcode. reflexivity. }
    cbn [String.length pred]. rewrite Nat2N.inj_succ, N.pow_succ_r'. nia.
Qed.

Lemma pow10_mono a b : a < b -> (10 ^ N.of_nat a * 10 <= 10 ^ N.of_nat b)%N.
Proof.
  intros Hlt. replace b with (S a + (b - S a)) by lia.
  rewrite Nat2N.inj_add, N.pow_add_r, Nat2N.inj_succ, N.pow_succ_r'.
  pose proof (N.pow_nonzero 10 (N.of_nat (b - S a))). nia.
Qed.

Lemma array_index_inj a b i :
  array_index a = Some i -> array_index b = Some i -> a = b.
Proof.
  intros Ha Hb.
  pose proof (array_index_length a i Ha) as Hla.
  pose proof (array_index_length b i Hb) as Hlb.
  assert (Hnonzero : ∀ k, (0 < 10 ^ N.of_nat k)%N).
  { intros k. pose proof (N.pow_nonzero 10 (N.of_nat k)). lia. }
  destruct Hla as [[-> ->]|Hla], Hlb as [[Hi ->]|Hlb]; try done.
  - pose proof (Hnonzero (pred (String.length b))). lia.
  - pose proof (Hnonzero (pred (String.length a))). lia.
  - assert (Hlen : String.length a = String.length b).
    { destruct (decide (String.length a < String.length b)) as [Hlt|];
        [|destruct (decide (String.length b < String.length a)) as [Hgt|]];
        [..|lia].
      - destruct b as [|cb rb]; [simpl in Hlt; lia|].
        cbn [String.length pred] in *.
        pose proof (pow10_mono (String.length a) (S (String.length rb)) Hlt)
          as Hpow.
        rewrite Nat2N.inj_succ, N.pow_succ_r' in Hpow. nia.
      - destruct a as [|ca ra]; [simpl in Hgt; lia|].
        cbn [String.length pred] in *.
        pose proof (pow10_mono (String.length b) (S (String.length ra)) Hgt)
          as Hpow.
        rewrite Nat2N.inj_succ, N.pow_succ_r' in Hpow. nia. }
    destruct a as [|ca ra]; [done|]. destruct b as [|cb rb]; [done|].
    unfold array_index in Ha, Hb.
    destruct (_ && _) in Ha; [done|]. destruct (_ && _) in Hb; [done|].
    destruct (decimal (String ca ra) 0) as [n|] eqn:Hn; [|done].
    destruct (decimal (String cb rb) 0) as [m|] eqn:Hm; [|done].
    destruct (n <=? 4294967294)%N; [|done].
    destruct (m <=? 4294967294)%N; [|done].
    injection Ha as ->. injection Hb as ->.
    by eapply decimal_inj.
Qed.

Lemma precedes_trans a b c : precedes a b -> precedes b c -> precedes a c.
Proof.
  unfold precedes.
  destruct (array_index a), (array_index b), (array_index c); try done; lia.
Qed.

Lemma precedes_non_index a key : array_index key = None -> precedes a key.
Proof.
  intros Hkey. unfold precedes. rewrite Hkey. by destruct (array_index a).
Qed.

Section CanonicalLemmas.
Context {V : Type}.
Implicit Types (object : JsObject V) (key : string) (value : V).

Lemma create_index_sorted object index key value :
  array_index key = Some index ->
  key ∉ object.*1 ->
  StronglySorted precedes object.*1 ->
  StronglySorted precedes (create_index object index key value).*1.
Proof.
  intros Hindex.
  induction object as [|[k v] rest IH]; intros Hfresh Hsorted.
  { simpl. repeat constructor. }
  rewrite fmap_cons in Hfresh, Hsorted. simpl in Hfresh, Hsorted.
  apply not_elem_of_cons in Hfresh as [Hne Hfresh].
  apply StronglySorted_cons in Hsorted as [Hhead Hsorted].
  assert (Hfront : precedes key k ->
            StronglySorted precedes ((key, value) :: (k, v) :: rest).*1).
  { intros Hkk. rewrite !fmap_cons. apply StronglySorted_cons. split.
    - apply Forall_cons. split; [done|].
      eapply Forall_impl; [exact Hhead|]. intros x. by apply precedes_trans.
    - by apply StronglySorted_cons. }
  cbn [create_index]. destruct (array_index k) as [i|] eqn:Hi.
  - destruct (i <? index)%N eqn:Hlt.
    + rewrite fmap_cons. apply StronglySorted_cons. split; [|by apply IH].
      rewrite (create_index_Permutation rest index key value).
      rewrite fmap_cons. apply Forall_cons. split; [|done].
      unfold precedes. simpl. rewrite Hi, Hindex. by apply N.ltb_lt.
    + apply Hfront. unfold precedes. rewrite Hi, Hindex.
      apply N.ltb_ge in Hlt.
      assert (index ≠ i); [|lia].
      intros ->. apply Hne. by apply (array_index_inj key k i).
  - apply Hfront. unfold precedes. by rewrite Hi, Hindex.
Qed.

Lemma create_index_last object index key value :
  array_index key = Some index ->
  Forall (fun k => precedes k key) object.*1 ->
  create_index object index key value = object ++ [(key, value)].
Proof.
  intros Hindex.
  induction object as [|[k v] rest IH]; [done|].
  rewrite fmap_cons, Forall_cons. intros [Hk Hrest].
  cbn [create_index]. unfold precedes in Hk. simpl in Hk.
  rewrite Hindex in Hk. destruct (array_index k) as [i|]; [|done].
  apply N.ltb_lt in Hk. rewrite Hk. simpl. by rewrite IH.
Qed.

Lemma set_property_canonical object key value :
  canonical object -> canonical (set_property object key value).
Proof.
  intros [Hnodup Hsorted]. split; [by apply set_property_NoDup|].
  unfold set_property.
  destruct (own_property object key) as [old|] eqn:Hold.
  - by rewrite update_property_keys.
  - apply own_property_None in Hold.
    destruct (array_index key) as [index|] eqn:Hindex.
    + by apply create_index_sorted.
    + rewrite fmap_app. apply StronglySorted_app. split; [|split; [done|]].
      * intros a b _ Hb. apply list_elem_of_singleton in Hb as ->.
        by apply precedes_non_index.
      * repeat constructor.
Qed.

Lemma fold_set_property_canonical (entries : list (string * V)) object :
  canonical object ->
  canonical (fold_left (fun object entry => set_property object entry.1 entry.2)
               entries object).
Proof.
  revert object.
  induction entries as [|[key value] rest IH]; intros object Hobject; simpl.
  - done.
  - by apply IH, set_property_canonical.
Qed.

Lemma Object_fromEntries_canonical (entries : list (string * V)) :
  canonical (Object_fromEntries entries).
Proof.
  apply fold_set_property_canonical. split; [apply NoDup_nil_2 | constructor].
Qed.

Lemma set_property_last object key value :
  canonical (object ++ [(key, value)]) ->
  set_property object key value = object ++ [(key, value)].
Proof.
  intros [Hnodup Hsorted]. rewrite fmap_app in Hnodup, Hsorted.
  apply NoDup_app in Hnodup as (_ & Hfresh & _).
  apply StronglySorted_app in Hsorted as (Hbefore & _ & _).
  assert (Hnone : own_property object key = None).
  { apply own_property_None. intros Hin. apply (Hfresh key Hin).
    by apply list_elem_of_singleton. }
  unfold set_property. rewrite Hnone.
  destruct (array_index key) as [index|] eqn:Hindex; [|done].
  apply create_index_last; [done|]. apply Forall_forall. intros k Hk.
  apply Hbefore; [done|]. by apply list_elem_of_singleton.
Qed.

Lemma canonical_app_l object (rest : JsObject V) :
  canonical (object ++ rest) -> canonical object.
Proof.
  intros [Hnodup Hsorted]. rewrite fmap_app in Hnodup, Hsorted. split.
  - by apply NoDup_app in Hnodup as (? & _ & _).
  - by apply StronglySorted_app_1_l in Hsorted.
Qed.

Lemma fold_set_property_canonical_id (rest : JsObject V) :
  ∀ object,
    canonical (object ++ rest) ->
    fold_left (fun object entry => set_property object entry.1 entry.2)
      rest object
    = object ++ rest.
Proof.
  induction rest as [|[key value] rest IH]; intros object Hall; simpl.
  - by rewrite app_nil_r.
  - rewrite (cons_middle (key, value) object rest), app_assoc in Hall.
    rewrite set_property_last by (by eapply canonical_app_l).
    rewrite IH by done. by rewrite <- app_assoc.
Qed.

(** The properties of an object define the same object again. *)
Lemma Object_fromEntries_entries object :
  canonical object -> Object_fromEntries (Object_entries object) = object.
Proof. intros Hobject. by apply (fold_set_property_canonical_id object []). Qed.

End CanonicalLemmas.

(** ** The walk of [setInternal] *)

Lemma getAll_app name (before after : URLSearchParams.t) :
  URLSearchParams.getAll name (before ++ after)
  = URLSearchParams.getAll name before ++ URLSearchParams.getAll name after.
Proof.
  induction before as [|[key value] rest IH]; simpl; [done|].
  destruct (String.eqb key name); simpl; by rewrite IH.
Qed.

Lemma occurrences_snoc key before k value :
  occurrences key (before ++ [(k, value)])
  = if decide (k = key) then S (occurrences key before)
    else occurrences key before.
Proof.
  unfold occurrences. rewrite getAll_app, length_app. simpl.
  destruct (String.eqb_spec k key); case_decide; simpl; try done; lia.
Qed.

Lemma occurrences_cons key k value rest :
  occurrences key ((k, value) :: rest)
  = if decide (k = key) then S (occurrences key rest)
    else occurrences key rest.
Proof.
  unfold occurrences. simpl.
  destruct (String.eqb_spec k key); by case_decide.
Qed.

Lemma own_property_shifted queues before key :
  own_property (shifted queues before) key
  = drop (occurrences key before) <$> own_property queues key.
Proof.
  induction queues as [|[k queue] rest IH]; simpl; [done|].
  by destruct (String.eqb_spec k key) as [->|Hne].
Qed.

Lemma shifted_nil queues : shifted queues [] = queues.
Proof.
  induction queues as [|[k queue] rest IH]; [done|].
  unfold shifted in *. rewrite fmap_cons, IH. done.
Qed.

Lemma shifted_snoc_other queues before key value :
  key ∉ queues.*1 ->
  shifted queues (before ++ [(key, value)]) = shifted queues before.
Proof.
  induction queues as [|[k queue] rest IH]; [done|].
  rewrite fmap_cons, not_elem_of_cons. intros [Hne Hrest].
  unfold shifted in *. rewrite !fmap_cons, IH by done.
  rewrite occurrences_snoc. by rewrite decide_False by done.
Qed.

(** One more occurrence of [key] shortens the queue of [key], and no
    other. *)
Lemma shifted_snoc queues before key value new :
  NoDup queues.*1 ->
  own_property queues key = Some new ->
  shifted queues (before ++ [(key, value)])
  = update_property (shifted queues before) key
      (drop (S (occurrences key before)) new).
Proof.
  induction queues as [|[k queue] rest IH]; [done|].
  rewrite fmap_cons, NoDup_cons. intros [Hfresh Hnodup].
  unfold shifted in *. rewrite !fmap_cons.
  cbn [own_property update_property fst]. rewrite occurrences_snoc.
  destruct (String.eqb_spec k key) as [->|Hne].
  - intros [= ->]. rewrite decide_True by done.
    f_equal. by apply shifted_snoc_other.
  - intros Hrest. rewrite decide_False by done. f_equal. by apply IH.
Qed.

Lemma replaced_cons values before key value rest :
  replaced values before ((key, value) :: rest)
  = replaced values before [(key, value)]
    ++ replaced values (before ++ [(key, value)]) rest.
Proof.
  simpl. destruct (own_property values key) as [new|]; [|done].
  by destruct (new !! occurrences key before).
Qed.

(** One turn of the loop, on queues without a key twice: the entry is
    treated as [replaced] says, unless [queues[key]] finds a member of
    [Object.prototype]. *)
Lemma setInternal_walk_replaced queues before nextEntries key value :
  NoDup queues.*1 ->
  (own_property queues key = None -> Object_prototype key = None) ->
  setInternal_walk (shifted queues before, nextEntries) (key, value)
  = Return (shifted queues (before ++ [(key, value)]),
            nextEntries ++ replaced queues before [(key, value)]).
Proof.
  intros Hnodup Hplain.
  unfold setInternal_walk, get_property. rewrite own_property_shifted.
  simpl. destruct (own_property queues key) as [new|] eqn:Hown; simpl.
  - rewrite (shifted_snoc queues before key value new) by done.
    destruct (new !! occurrences key before) as [first|] eqn:Hrank.
    + by rewrite (drop_S _ _ _ Hrank).
    + apply lookup_ge_None in Hrank.
      rewrite (drop_ge new (occurrences key before)) by done.
      rewrite (drop_ge new (S (occurrences key before))) by lia.
      rewrite update_property_same, app_nil_r; [done|].
      rewrite own_property_shifted, Hown. simpl. by rewrite drop_ge.
  - rewrite (Hplain eq_refl).
    rewrite shifted_snoc_other; [done|]. by apply own_property_None.
Qed.

Lemma for_of_walk_replaced queues entries :
  NoDup queues.*1 ->
  no_inherited queues entries ->
  ∀ before nextEntries,
    for_of setInternal_walk entries (shifted queues before, nextEntries)
    = Return (shifted queues (before ++ entries),
              nextEntries ++ replaced queues before entries).
Proof.
  intros Hnodup.
  induction entries as [|[key value] rest IH]; intros Hplain before nextEntries.
  { simpl. by rewrite !app_nil_r. }
  cbn [for_of]. rewrite setInternal_walk_replaced; [|done|].
  - cbn [mbind Completion_bind]. rewrite IH.
    + rewrite (replaced_cons queues before key value rest), <- !app_assoc.
      done.
    + intros k v Hin. apply (Hplain k v). apply elem_of_cons. by right.
  - apply (Hplain key value). apply elem_of_cons. by left.
Qed.

Lemma fold_push key (queue : list string) (nextEntries : URLSearchParams.t) :
  fold_left (fun nextEntries value => nextEntries ++ [(key, value)])
    queue nextEntries
  = nextEntries ++ List.map (pair key) queue.
Proof.
  revert nextEntries.
  induction queue as [|value rest IH]; intros nextEntries; simpl.
  - by rewrite app_nil_r.
  - by rewrite IH, <- app_assoc.
Qed.

Lemma fold_remaining queues entries nextEntries :
  fold_left setInternal_remaining (Object_entries (shifted queues entries))
    nextEntries
  = nextEntries ++ leftover queues entries.
Proof.
  revert nextEntries. unfold leftover, Object_entries.
  induction queues as [|[key queue] rest IH]; intros nextEntries.
  - simpl. by rewrite app_nil_r.
  - unfold shifted in *. rewrite fmap_cons. simpl.
    rewrite fold_push, IH, <- app_assoc. done.
Qed.

Lemma map_entry_id {A B} (entries : list (A * B)) :
  List.map (fun '(key, value) => (key, value)) entries = entries.
Proof.
  induction entries as [|[key value] rest IH]; simpl; [done|].
  by rewrite IH.
Qed.

(** Unless an entry of the sequence bears the name of a member of
    [Object.prototype] that the mapping leaves out, [setInternal] returns
    the facade of the merged sequence: the walk, then the leftover, in
    the order in which the queues are visited. *)
Theorem setInternal_merged values S :
  let queues := Object_fromEntries (Object_entries values) in
  no_inherited queues (urlSearchParams S) ->
  setInternal values S
  = Return (safeSearchParams (merged queues (urlSearchParams S))).
Proof.
  intros queues Hplain. unfold setInternal. rewrite map_entry_id. fold queues.
  rewrite <- (shifted_nil queues) at 1.
  rewrite for_of_walk_replaced; [|apply Object_fromEntries_NoDup|done].
  cbn [mbind Completion_bind mret Completion_ret]. rewrite fold_remaining.
  done.
Qed.

(** ** What the merged sequence holds *)

Lemma getAll_pairs name key (queue : list string) :
  URLSearchParams.getAll name (List.map (pair key) queue)
  = if decide (key = name) then queue else [].
Proof.
  induction queue as [|value rest IH]; simpl.
  - by case_decide.
  - rewrite IH. destruct (String.eqb_spec key name); by case_decide.
Qed.

Lemma getAll_replaced_untouched values name entries :
  own_property values name = None ->
  ∀ before,
    URLSearchParams.getAll name (replaced values before entries)
    = URLSearchParams.getAll name entries.
Proof.
  intros Hnone.
  induction entries as [|[key value] rest IH]; intros before; simpl; [done|].
  destruct (own_property values key) as [new|] eqn:Hkey.
  - destruct (String.eqb_spec key name) as [->|Hne]; [congruence|].
    destruct (new !! occurrences key before); simpl.
    + destruct (String.eqb_spec key name); [done | apply IH].
    + apply IH.
  - simpl. by rewrite IH.
Qed.

Lemma getAll_replaced_updated values name new entries :
  own_property values name = Some new ->
  ∀ before,
    URLSearchParams.getAll name (replaced values before entries)
    = take (occurrences name entries) (drop (occurrences name before) new).
Proof.
  intros Hnew.
  induction entries as [|[key value] rest IH]; intros before.
  { simpl. by rewrite take_0. }
  cbn [replaced]. rewrite occurrences_cons.
  destruct (decide (key = name)) as [->|Hne].
  - rewrite Hnew.
    destruct (new !! occurrences name before) as [v|] eqn:Hrank.
    + cbn [URLSearchParams.getAll]. rewrite String.eqb_refl, IH.
      rewrite occurrences_snoc, decide_True by done.
      by rewrite (drop_S _ _ _ Hrank).
    + rewrite IH, occurrences_snoc, decide_True by done.
      apply lookup_ge_None in Hrank.
      rewrite (drop_ge new (occurrences name before)) by done.
      rewrite (drop_ge new (S (occurrences name before))) by lia.
      by rewrite !take_nil.
  - assert (Hrest : URLSearchParams.getAll name
                      (replaced values (before ++ [(key, value)]) rest)
                    = take (occurrences name rest)
                        (drop (occurrences name before) new)).
    { rewrite IH, occurrences_snoc. by rewrite decide_False by done. }
    assert (Hskip : ∀ v others,
              URLSearchParams.getAll name ((key, v) :: others)
              = URLSearchParams.getAll name others).
    { intros v others. simpl. by destruct (String.eqb_spec key name). }
    destruct (own_property values key) as [other|].
    + destruct (other !! occurrences key before); by rewrite ?Hskip.
    + by rewrite Hskip.
Qed.

Lemma getAll_leftover_untouched values name entries :
  own_property values name = None ->
  URLSearchParams.getAll name (leftover values entries) = [].
Proof.
  unfold leftover, Object_entries.
  induction values as [|[key queue] rest IH]; simpl; [done|].
  destruct (String.eqb_spec key name) as [->|Hne]; [done|]. intros Hrest.
  rewrite getAll_app, getAll_pairs, IH by done.
  by rewrite decide_False by done.
Qed.

Lemma getAll_leftover_updated values name new entries :
  NoDup values.*1 ->
  own_property values name = Some new ->
  URLSearchParams.getAll name (leftover values entries)
  = drop (occurrences name entries) new.
Proof.
  unfold leftover, Object_entries.
  induction values as [|[key queue] rest IH]; [done|].
  rewrite fmap_cons, NoDup_cons. intros [Hfresh Hnodup]. simpl.
  rewrite getAll_app, getAll_pairs.
  destruct (String.eqb_spec key name) as [->|Hne].
  - intros [= ->]. rewrite decide_True by done.
    apply own_property_None in Hfresh.
    pose proof (getAll_leftover_untouched rest name entries Hfresh) as Hnone.
    unfold leftover, Object_entries in Hnone. by rewrite Hnone, app_nil_r.
  - intros Hrest. rewrite decide_False by done. by apply IH.
Qed.

(** A key of the mapping ends up with its new values, all of them and
    in their order. *)
Lemma merged_getAll_updated values name new entries :
  NoDup values.*1 ->
  own_property values name = Some new ->
  URLSearchParams.getAll name (merged values entries) = new.
Proof.
  intros Hnodup Hnew. unfold merged.
  rewrite getAll_app, (getAll_replaced_updated values name new) by done.
  rewrite (getAll_leftover_updated values name new) by done.
  unfold occurrences at 2. simpl. rewrite drop_0. apply take_drop.
Qed.

(** A key the mapping leaves out keeps its values. *)
Lemma merged_getAll_untouched values name entries :
  own_property values name = None ->
  URLSearchParams.getAll name (merged values entries)
  = URLSearchParams.getAll name entries.
Proof.
  intros Hnone. unfold merged.
  rewrite getAll_app, getAll_replaced_untouched by done.
  by rewrite getAll_leftover_untouched, app_nil_r.
Qed.

Lemma untouched_replaced values entries :
  ∀ before,
    untouched values (replaced values before entries)
    = untouched values entries.
Proof.
  unfold untouched.
  induction entries as [|[key value] rest IH]; intros before; simpl; [done|].
  destruct (own_property values key) as [new|] eqn:Hkey.
  - rewrite bool_decide_eq_false_2 by done.
    destruct (new !! occurrences key before); simpl; [|apply IH].
    rewrite Hkey. rewrite bool_decide_eq_false_2 by done. apply IH.
  - simpl. rewrite Hkey. rewrite bool_decide_eq_true_2 by done.
    by rewrite IH.
Qed.

Lemma untouched_pairs values key queue (new : list string) :
  own_property values key = Some queue ->
  untouched values (List.map (pair key) new) = [].
Proof.
  intros Hkey. unfold untouched.
  induction new as [|value rest IH]; simpl; [done|].
  rewrite Hkey. by rewrite bool_decide_eq_false_2 by done.
Qed.

Lemma untouched_queues values (queues : JsObject (list string)) entries :
  (∀ key queue,
     (key, queue) ∈ queues -> is_Some (own_property values key)) ->
  untouched values
    (flat_map
       (fun '(key, new) =>
          List.map (pair key) (drop (occurrences key entries) new))
       queues)
  = [].
Proof.
  induction queues as [|[key queue] rest IH]; intros Hown; simpl; [done|].
  unfold untouched in *. rewrite List.filter_app, IH.
  - destruct (Hown key queue) as [q Hq]; [apply elem_of_cons; by left|].
    pose proof (untouched_pairs values key q
                  (drop (occurrences key entries) queue) Hq) as Hnil.
    unfold untouched in Hnil. by rewrite Hnil.
  - intros k q Hin. apply (Hown k q). apply elem_of_cons. by right.
Qed.

Lemma untouched_leftover values entries :
  untouched values (leftover values entries) = [].
Proof.
  apply untouched_queues. intros key queue Hin.
  destruct (own_property values key) eqn:Hkey; [done|].
  apply own_property_None in Hkey. destruct Hkey.
  apply list_elem_of_fmap. by exists (key, queue).
Qed.

(** The entries of the keys the mapping leaves out come through the
    merge as they were, one after the other. *)
Lemma merged_untouched values entries :
  untouched values (merged values entries) = untouched values entries.
Proof.
  unfold merged.
  pose proof (untouched_replaced values entries []) as Hwalk.
  pose proof (untouched_leftover values entries) as Hleft.
  unfold untouched in *. by rewrite List.filter_app, Hwalk, Hleft, app_nil_r.
Qed.

(** The update of C1, away from the names of [Object.prototype]: a key
    of the mapping with [m] new values and [n] occurrences ends with [m]
    occurrences, its first [min n m] new values where the walk met its
    first occurrences and the other [m - n] in the leftover at the
    end; the entries of the other keys come through as they were. *)
Theorem setInternal_as_specified values S :
  let queues := Object_fromEntries (Object_entries values) in
  let entries := urlSearchParams S in
  no_inherited queues entries ->
  ∃ S',
    setInternal values S = Return S'
    ∧ urlSearchParams S'
      = replaced queues [] entries ++ leftover queues entries
    ∧ (∀ name new,
         own_property queues name = Some new ->
         occurrences name (urlSearchParams S') = length new
         ∧ URLSearchParams.getAll name (replaced queues [] entries)
           = take (occurrences name entries) new
         ∧ URLSearchParams.getAll name (leftover queues entries)
           = drop (occurrences name entries) new)
    ∧ untouched queues (urlSearchParams S') = untouched queues entries.
Proof.
  intros queues entries Hplain.
  exists (safeSearchParams (merged queues entries)).
  split; [by apply setInternal_merged|]. split; [done|].
  assert (Hnodup : NoDup queues.*1) by apply Object_fromEntries_NoDup.
  split; [|apply merged_untouched].
  intros name new Hnew. split; [|split].
  - unfold occurrences. simpl.
    by rewrite (merged_getAll_updated queues name new).
  - rewrite (getAll_replaced_updated queues name new) by done.
    unfold occurrences at 2. simpl. by rewrite drop_0.
  - by apply getAll_leftover_updated.
Qed.

(** ** set, setObj and delete *)

Lemma set_property_nil {V} key (value : V) :
  set_property [] key value = [(key, value)].
Proof. unfold set_property. simpl. by destruct (array_index key). Qed.

(** Unless an entry of another name bears the name of a member of
    [Object.prototype], [set] merges the serialized value into the
    sequence. *)
Theorem set_merged {T} name (type : TDatatype T) value S :
  let values := [(name, serialize type value)] in
  no_inherited values (urlSearchParams S) ->
  set name type value S
  = Return (safeSearchParams (merged values (urlSearchParams S))).
Proof.
  intros values Hplain. unfold set. rewrite set_property_nil. fold values.
  assert (Hqueues : Object_fromEntries (Object_entries values) = values).
  { unfold Object_fromEntries, Object_entries, values. simpl.
    apply set_property_nil. }
  rewrite setInternal_merged; rewrite Hqueues; done.
Qed.

(** The same for [setObj], whose mapping has the serialized fields in
    the order in which [Object.entries] visits them. *)
Theorem setObj_merged {Out} (obj : JsObject (TDatatypeAny Out))
    (values : JsObject (option Out)) S :
  let nextValues := Object_fromEntries (serialized_fields obj values) in
  Forall (serializes obj) (Object_entries values) ->
  no_inherited nextValues (urlSearchParams S) ->
  setObj obj values S
  = Return (safeSearchParams (merged nextValues (urlSearchParams S))).
Proof.
  intros nextValues Hfields Hplain. unfold setObj.
  rewrite (setObj_collect_all obj _ Hfields []).
  change (setInternal nextValues S
          = Return (safeSearchParams (merged nextValues (urlSearchParams S)))).
  assert (Hqueues : Object_fromEntries (Object_entries nextValues)
                    = nextValues).
  { apply Object_fromEntries_entries, Object_fromEntries_canonical. }
  rewrite (setInternal_merged nextValues S); rewrite Hqueues; done.
Qed.

Lemma replaced_without_values name entries :
  ∀ before,
    replaced [(name, [])] before entries = URLSearchParams.delete name entries.
Proof.
  induction entries as [|[key value] rest IH]; intros before; simpl; [done|].
  rewrite IH. rewrite (String.eqb_sym name key).
  by destruct (String.eqb key name).
Qed.

(** Unless an entry of another name bears the name of a member of
    [Object.prototype], setting a name to no raw value deletes it. *)
Theorem set_nothing_is_delete {T} name (type : TDatatype T) value S :
  serialize type value = [] ->
  no_inherited [(name, [])] (urlSearchParams S) ->
  set name type value S = Return (del name S).
Proof.
  intros Hempty Hplain. rewrite set_merged; rewrite Hempty; [|done].
  unfold del, merged, leftover. simpl.
  by rewrite replaced_without_values, drop_nil, app_nil_r.
Qed.

(** C1, where the code departs from it.  In [toString=1&a=2] the key
    [toString] is not in the mapping of [set("a", rString(), "3")], and
    the merge of the specification keeps its entry in place; the code
    drops it, because [queues["toString"]] is the function inherited
    from [Object.prototype], whose [length] is [0].  With [constructor],
    a function of [length] [1], the code throws on [queue.shift()]. *)
Theorem set_loses_inherited_name :
  let S := safeSearchParams [("toString", "1"); ("a", "2")] in
  own_property [("a", ["3"])] "toString" = None
  ∧ merged [("a", ["3"])] (urlSearchParams S)
    = [("toString", "1"); ("a", "3")]
  ∧ set "a" rString (Some "3") S = Return (safeSearchParams [("a", "3")])
  ∧ set "a" rString (Some "3")
      (safeSearchParams [("constructor", "1"); ("a", "2")])
    = Throw TypeError.
Proof. repeat split. Qed.

(** C2, where the code departs from it.  [rString] serializes [null] to
    no raw value; on [toString=1&a=2], [delete("a")] leaves [toString=1]
    and [set("a", rString(), null)] leaves nothing. *)
Theorem set_nothing_differs_from_delete :
  let S := safeSearchParams [("toString", "1"); ("a", "2")] in
  serialize rString None = []
  ∧ del "a" S = safeSearchParams [("toString", "1")]
  ∧ set "a" rString None S = Return (safeSearchParams []).
Proof. repeat split. Qed.

(** ** The scenarios of the repository's tests *)

Example test_multi :
  let params :=
    safeSearchParams [("tag", "first"); ("tag", "second"); ("tag", "third")] in
  (get "tag" rString params).1 = Some (Some "first")
  ∧ (get "tag" (rMultiple rString) params).1
    = Some [Some "first"; Some "second"; Some "third"].
Proof. split; reflexivity. Qed.

Example test_multi_update :
  let dt := rMultiple rString in
  let params :=
    safeSearchParams
      [("tag", "first"); ("other", "hey"); ("tag", "second");
       ("tag", "third")] in
  let updated :=
    safeSearchParams
      [("tag", "first"); ("other", "hey"); ("tag", "second");
       ("tag", "third"); ("tag", "fourth")] in
  let updated2 :=
    safeSearchParams [("tag", "a"); ("other", "hey"); ("tag", "b")] in
  set "tag" dt [Some "first"; Some "second"; Some "third"; Some "fourth"]
    params
  = Return updated
  ∧ set "tag" dt [Some "a"; Some "b"] updated = Return updated2
  ∧ sort updated2
    = safeSearchParams [("other", "hey"); ("tag", "a"); ("tag", "b")].
Proof. repeat split. Qed.

Example test_delete :
  del "b" (safeSearchParams [("a", "1"); ("b", "2"); ("c", "hey")])
  = safeSearchParams [("a", "1"); ("c", "hey")].
Proof. reflexivity. Qed.

Example test_setObj_partial `{JsHost} (three : Number) :
  toFixed three = "3" ->
  setObj [("a", nullable_any rInteger); ("b", nullable_any rInteger)]
    [("a", Some (Some three)); ("b", None)]
    (safeSearchParams [("a", "1"); ("b", "2"); ("c", "hey")])
  = Return (safeSearchParams [("a", "3"); ("c", "hey")]).
Proof. intros Hthree. unfold setObj. simpl. by rewrite Hthree. Qed.

Example test_datatypes :
  let params := safeSearchParams [("a", "1"); ("b", "2"); ("c", "hey")] in
  (get "c" rString params).1 = Some (Some "hey")
  ∧ to_js (get "d" rString params).1 = JNull
  ∧ (get "a" rPresent params).1 = Some true
  ∧ (get "d" rPresent params).1 = Some false
  ∧ (get "a" (rEnum ["1"; "2"]) params).1 = Some (Some "1")
  ∧ to_js (get "c" (rEnum ["1"; "2"]) params).1 = JNull
  ∧ to_js (get "d" (rEnum ["1"; "2"]) params).1 = JNull
  ∧ (getOrThrow "d" rString params).1 = Return None.
Proof. repeat split. Qed.

(** * Further properties *)

(** ** The walk of [setInternal], on every sequence *)

Lemma get_property_shifted queues before key :
  get_property (shifted queues before) key
  = match get_property queues key with
    | Own queue => Own (drop (occurrences key before) queue)
    | Inherited length => Inherited length
    | Undefined => Undefined
    end.
Proof.
  unfold get_property. rewrite own_property_shifted.
  destruct (own_property queues key); [done|].
  by destruct (Object_prototype key).
Qed.

Lemma for_of_walk queues entries :
  NoDup queues.*1 ->
  ∀ before nextEntries,
    for_of setInternal_walk entries (shifted queues before, nextEntries)
    = if existsb (fatal queues) entries then Throw TypeError
      else
        let kept := List.filter (fun entry => negb (lost queues entry))
                      entries in
        Return (shifted queues (before ++ kept),
                nextEntries ++ replaced queues before kept).
Proof.
  intros Hnodup.
  induction entries as [|[key value] rest IH]; intros before nextEntries.
  { simpl. by rewrite !app_nil_r. }
  assert (Hkept : (own_property queues key = None ->
                   Object_prototype key = None) ->
            for_of setInternal_walk ((key, value) :: rest)
              (shifted queues before, nextEntries)
            = if existsb (fatal queues) rest then Throw TypeError
              else
                Return
                  (shifted queues
                     (before ++ (key, value)
                        :: List.filter
                             (fun entry => negb (lost queues entry)) rest),
                   nextEntries
                   ++ replaced queues before
                        ((key, value)
                           :: List.filter
                                (fun entry => negb (lost queues entry))
                                rest))).
  { intros Hplain. cbn [for_of].
    rewrite setInternal_walk_replaced by done.
    cbn [mbind Completion_bind]. rewrite IH.
    destruct (existsb (fatal queues) rest); [done|]. cbv zeta.
    rewrite (replaced_cons queues before key value (List.filter _ rest)).
    by rewrite <- !app_assoc. }
  assert (Hfatal : fatal queues (key, value)
                   = match get_property queues key with
                     | Inherited (S _) => true
                     | _ => false
                     end) by done.
  assert (Hlost : lost queues (key, value)
                  = match get_property queues key with
                    | Inherited 0 => true
                    | _ => false
                    end) by done.
  cbn [existsb List.filter]. rewrite Hfatal, Hlost. clear Hfatal Hlost.
  destruct (get_property queues key) as [queue|[|length]|] eqn:Hkey;
    cbn [orb negb].
  - apply Hkept. intros Hnone.
    unfold get_property in Hkey. rewrite Hnone in Hkey.
    by destruct (Object_prototype key).
  - cbn [for_of].
    assert (Hstep : setInternal_walk (shifted queues before, nextEntries)
                      (key, value)
                    = Return (shifted queues before, nextEntries)).
    { unfold setInternal_walk. by rewrite get_property_shifted, Hkey. }
    rewrite Hstep. cbn [mbind Completion_bind]. by rewrite IH.
  - cbn [for_of]. unfold setInternal_walk.
    by rewrite get_property_shifted, Hkey.
  - apply Hkept. intros _. unfold get_property in Hkey.
    destruct (own_property queues key); [done|].
    by destruct (Object_prototype key).
Qed.

Lemma setInternal_result values S :
  let queues := Object_fromEntries (Object_entries values) in
  setInternal values S
  = if existsb (fatal queues) (urlSearchParams S) then Throw TypeError
    else
      Return (safeSearchParams
                (merged queues
                   (List.filter (fun entry => negb (lost queues entry))
                      (urlSearchParams S)))).
Proof.
  intros queues. unfold setInternal. rewrite map_entry_id. fold queues.
  rewrite <- (shifted_nil queues) at 1.
  rewrite for_of_walk by apply Object_fromEntries_NoDup.
  destruct (existsb (fatal queues) (urlSearchParams S)); [done|].
  cbn [mbind Completion_bind mret Completion_ret]. rewrite fold_remaining.
  done.
Qed.

Lemma existsb_Exists {A} (f : A -> bool) (items : list A) :
  existsb f items = true ↔ Exists (fun item => f item = true) items.
Proof.
  induction items as [|item rest IH]; simpl.
  - split; [done | by intros ?%Exists_nil].
  - rewrite Exists_cons, <- IH.
    by destruct (f item), (existsb f rest); intuition.
Qed.

Lemma existsb_Forall {A} (f : A -> bool) (items : list A) :
  existsb f items = false ↔ Forall (fun item => f item = false) items.
Proof.
  induction items as [|item rest IH]; simpl.
  - split; [by constructor | done].
  - rewrite Forall_cons, <- IH.
    by destruct (f item), (existsb f rest); intuition.
Qed.

(** X1. [setInternal] throws, a [TypeError], exactly on the sequences
    with an entry whose key the mapping leaves out and which names a
    function of [Object.prototype] that takes arguments ([constructor],
    [hasOwnProperty], ...); on the others it returns the facade of the
    merge of the sequence without the entries it loses, those named as a
    function without arguments ([toString], [valueOf],
    [toLocaleString]). *)
Theorem setInternal_outcome (values : JsObject (list string))
    (S : TSafeSearchParams) :
  let queues := Object_fromEntries (Object_entries values) in
  let kept :=
    List.filter (fun entry => negb (lost queues entry)) (urlSearchParams S) in
  (Exists (fun entry => fatal queues entry = true) (urlSearchParams S) ->
   setInternal values S = Throw TypeError)
  ∧ (Forall (fun entry => fatal queues entry = false) (urlSearchParams S) ->
     setInternal values S = Return (safeSearchParams (merged queues kept))).
Proof.
  intros queues kept. rewrite (setInternal_result values S). fold queues kept.
  split.
  - intros Hfatal%existsb_Exists. by rewrite Hfatal.
  - intros Hnone%existsb_Forall. by rewrite Hnone.
Qed.

Lemma setInternal_outcome_witness :
  (Exists (fun entry => fatal [("a", ["3"])] entry = true)
     [("hasOwnProperty", "1"); ("a", "2")]
   ∧ setInternal [("a", ["3"])]
       (safeSearchParams [("hasOwnProperty", "1"); ("a", "2")])
     = Throw TypeError)
  ∧ (Forall (fun entry => fatal [("a", ["3"; "4"])] entry = false)
       [("valueOf", "1"); ("a", "2"); ("b", "5")]
     ∧ setInternal [("a", ["3"; "4"])]
         (safeSearchParams [("valueOf", "1"); ("a", "2"); ("b", "5")])
       = Return (safeSearchParams [("a", "3"); ("b", "5"); ("a", "4")])).
Proof.
  split.
  - assert (Hfatal : Exists (fun entry => fatal [("a", ["3"])] entry = true)
                       [("hasOwnProperty", "1"); ("a", "2")]).
    { apply Exists_cons_hd. reflexivity. }
    split; [exact Hfatal|].
    exact (proj1 (setInternal_outcome [("a", ["3"])]
                    (safeSearchParams [("hasOwnProperty", "1"); ("a", "2")]))
             Hfatal).
  - assert (Hnone : Forall
                      (fun entry => fatal [("a", ["3"; "4"])] entry = false)
                      [("valueOf", "1"); ("a", "2"); ("b", "5")]).
    { repeat constructor. }
    split; [exact Hnone|].
    exact (proj2 (setInternal_outcome [("a", ["3"; "4"])]
                    (safeSearchParams
                       [("valueOf", "1"); ("a", "2"); ("b", "5")]))
             Hnone).
Defined.

(** ** set, on every sequence *)

Lemma getAll_elem name value (entries : URLSearchParams.t) :
  value ∈ URLSearchParams.getAll name entries ↔ (name, value) ∈ entries.
Proof.
  induction entries as [|[k v] rest IH]; simpl.
  - by rewrite !elem_of_nil.
  - rewrite (elem_of_cons rest). destruct (String.eqb_spec k name) as [->|Hne].
    + rewrite elem_of_cons, IH. split; intros [Heq|Hin]; auto; left; congruence.
    + rewrite IH. split; [auto | intros [[= ? ?]|Hin]; done].
Qed.

Lemma getAll_kept queues name (entries : URLSearchParams.t) :
  URLSearchParams.getAll name
    (List.filter (fun entry => negb (lost queues entry)) entries)
  = if lost queues (name, EmptyString) then []
    else URLSearchParams.getAll name entries.
Proof.
  induction entries as [|[k v] rest IH]; simpl.
  - by destruct (lost queues _).
  - destruct (String.eqb_spec k name) as [->|Hne].
    + change (lost queues (name, v)) with (lost queues (name, EmptyString)).
      destruct (lost queues (name, EmptyString)); simpl; [done|].
      by rewrite String.eqb_refl, IH.
    + destruct (lost queues (k, v)); simpl; [done|].
      by destruct (String.eqb_spec k name).
Qed.

Lemma set_result {T} name (type : TDatatype T) value S :
  let values := [(name, serialize type value)] in
  set name type value S
  = if existsb (fatal values) (urlSearchParams S) then Throw TypeError
    else
      Return (safeSearchParams
                (merged values
                   (List.filter (fun entry => negb (lost values entry))
                      (urlSearchParams S)))).
Proof.
  intros values. unfold set. rewrite set_property_nil. fold values.
  rewrite setInternal_result.
  assert (Hqueues : Object_fromEntries (Object_entries values) = values).
  { unfold Object_fromEntries, Object_entries, values. simpl.
    apply set_property_nil. }
  by rewrite Hqueues.
Qed.

Lemma set_Return {T} name (type : TDatatype T) value S S' :
  let values := [(name, serialize type value)] in
  set name type value S = Return S' ->
  Forall (fun entry => fatal values entry = false) (urlSearchParams S)
  ∧ S' = safeSearchParams
           (merged values
              (List.filter (fun entry => negb (lost values entry))
                 (urlSearchParams S))).
Proof.
  intros values. rewrite set_result. fold values.
  destruct (existsb (fatal values) (urlSearchParams S)) eqn:Hfatal; [done|].
  intros [= <-]. split; [by apply existsb_Forall | done].
Qed.

Lemma own_property_singleton {V} name (value : V) key :
  own_property [(name, value)] key
  = if decide (name = key) then Some value else None.
Proof. simpl. destruct (String.eqb_spec name key); by case_decide. Qed.

(** X2. The round trip through an update: whenever [set] returns, the
    raw values of the name in the new facade are the serialized value,
    so that [get] reads what the datatype parses from its own
    serialization. *)
Theorem set_then_get {T} (name : string) (type : TDatatype T) (value : T)
    (S S' : TSafeSearchParams) :
  set name type value S = Return S' ->
  URLSearchParams.getAll name (urlSearchParams S') = serialize type value
  ∧ (get name type S').1
    = match parse type (serialize type value) with
      | Valid parsed => Some parsed
      | Invalid _ => None
      end.
Proof.
  intros [_ ->]%set_Return.
  assert (Hall : URLSearchParams.getAll name
                   (urlSearchParams
                      (safeSearchParams
                         (merged [(name, serialize type value)]
                            (List.filter
                               (fun entry =>
                                  negb (lost [(name, serialize type value)]
                                          entry))
                               (urlSearchParams S)))))
                 = serialize type value).
  { simpl urlSearchParams. apply merged_getAll_updated.
    - apply NoDup_singleton.
    - rewrite own_property_singleton. by rewrite decide_True. }
  split; [done|].
  rewrite get_fst by apply safeSearchParams_consistent. by rewrite Hall.
Qed.

Lemma set_then_get_witness :
  let S := safeSearchParams [("toString", "1"); ("a", "2"); ("b", "3")] in
  let S' := safeSearchParams [("a", "x"); ("b", "3"); ("a", "y")] in
  set "a" (rMultiple rString) [Some "x"; Some "y"] S = Return S'
  ∧ URLSearchParams.getAll "a" (urlSearchParams S') = ["x"; "y"]
  ∧ (get "a" (rMultiple rString) S').1 = Some [Some "x"; Some "y"].
Proof.
  intros S S'.
  assert (Hset : set "a" (rMultiple rString) [Some "x"; Some "y"] S
                 = Return S') by reflexivity.
  split; [exact Hset|].
  exact (set_then_get "a" (rMultiple rString) [Some "x"; Some "y"] S S' Hset).
Defined.

Lemma lost_other name (queue : list string) key value :
  name ≠ key ->
  lost [(name, queue)] (key, value)
  = match Object_prototype key with Some 0 => true | _ => false end.
Proof.
  intros Hne. unfold lost, get_property. simpl.
  destruct (String.eqb_spec name key); [done|].
  by destruct (Object_prototype key) as [[|length]|].
Qed.

Lemma fatal_other name (queue : list string) key value :
  name ≠ key ->
  fatal [(name, queue)] (key, value)
  = match Object_prototype key with Some (S _) => true | _ => false end.
Proof.
  intros Hne. unfold fatal, get_property. simpl.
  destruct (String.eqb_spec name key); [done|].
  by destruct (Object_prototype key) as [[|length]|].
Qed.

Lemma getAll_nil name (entries : URLSearchParams.t) :
  (∀ value, (name, value) ∉ entries) ->
  URLSearchParams.getAll name entries = [].
Proof.
  intros Hnone.
  destruct (URLSearchParams.getAll name entries) as [|value rest] eqn:Hall;
    [done|].
  destruct (Hnone value). apply getAll_elem. rewrite Hall.
  apply elem_of_cons. by left.
Qed.

(** X3. What [set] does to the other names, whenever it returns: a name
    that [Object.prototype] does not have keeps its raw values, and a
    name that it has ([toString], [valueOf], ...) is left without
    any. *)
Theorem set_other_names {T} (name : string) (type : TDatatype T) (value : T)
    (S S' : TSafeSearchParams) (key : string) :
  set name type value S = Return S' ->
  key ≠ name ->
  URLSearchParams.getAll key (urlSearchParams S')
  = match Object_prototype key with
    | Some _ => []
    | None => URLSearchParams.getAll key (urlSearchParams S)
    end.
Proof.
  intros [Hfatal ->]%set_Return Hne. simpl urlSearchParams.
  rewrite merged_getAll_untouched.
  2: { rewrite own_property_singleton. by rewrite decide_False. }
  rewrite getAll_kept, lost_other by done.
  destruct (Object_prototype key) as [[|length]|] eqn:Hproto; [done| |done].
  apply getAll_nil. intros v Hin.
  rewrite Forall_forall in Hfatal. specialize (Hfatal (key, v) Hin).
  rewrite fatal_other, Hproto in Hfatal by done. done.
Qed.

Lemma set_other_names_witness :
  let S := safeSearchParams [("toString", "1"); ("a", "2"); ("b", "3")] in
  let S' := safeSearchParams [("a", "x"); ("b", "3")] in
  (set "a" rString (Some "x") S = Return S'
   ∧ "b" ≠ "a"
   ∧ URLSearchParams.getAll "b" (urlSearchParams S') = ["3"])
  ∧ ("toString" ≠ "a"
     ∧ URLSearchParams.getAll "toString" (urlSearchParams S') = []).
Proof.
  intros S S'.
  assert (Hset : set "a" rString (Some "x") S = Return S') by reflexivity.
  assert (Hb : "b" ≠ "a") by discriminate.
  assert (Hto : "toString" ≠ "a") by discriminate.
  split.
  - split; [exact Hset|]. split; [exact Hb|].
    exact (set_other_names "a" rString (Some "x") S S' "b" Hset Hb).
  - split; [exact Hto|].
    exact (set_other_names "a" rString (Some "x") S S' "toString" Hset Hto).
Defined.

(** ** set twice, and set of a new name *)

Lemma elem_of_replaced values key value entries :
  ∀ before,
    (key, value) ∈ replaced values before entries ->
    is_Some (own_property values key) ∨ (key, value) ∈ entries.
Proof.
  induction entries as [|[k v] rest IH]; intros before; simpl.
  { by intros ?%elem_of_nil. }
  destruct (own_property values k) as [new|] eqn:Hk.
  - destruct (new !! occurrences k before).
    + intros [[= -> ->]|Hin]%elem_of_cons.
      * left. by rewrite Hk.
      * destruct (IH _ Hin); [by left | right]. apply elem_of_cons. by right.
    + intros Hin.
      destruct (IH _ Hin); [by left | right]. apply elem_of_cons. by right.
  - intros [[= -> ->]|Hin]%elem_of_cons.
    + right. apply elem_of_cons. by left.
    + destruct (IH _ Hin); [by left | right]. apply elem_of_cons. by right.
Qed.

Lemma elem_of_leftover values key value entries :
  (key, value) ∈ leftover values entries ->
  is_Some (own_property values key).
Proof.
  unfold leftover, Object_entries. intros Hin.
  apply list_elem_of_In, in_flat_map in Hin as [[k new] [Hk Hin]].
  apply in_map_iff in Hin as (v & [= -> ->] & _).
  apply list_elem_of_In in Hk.
  destruct (own_property values key) eqn:Hown; [done|].
  apply own_property_None in Hown. destruct Hown.
  apply list_elem_of_fmap. by exists (key, new).
Qed.

(** An entry of the merged sequence has a key of the mapping, or is an
    entry of the sequence. *)
Lemma elem_of_merged values key value entries :
  (key, value) ∈ merged values entries ->
  is_Some (own_property values key) ∨ (key, value) ∈ entries.
Proof.
  unfold merged. intros [Hin|Hin]%elem_of_app.
  - by apply (elem_of_replaced values key value entries []).
  - left. by apply (elem_of_leftover values key value entries).
Qed.

(** A sequence that has the new values of [name] already, in their
    order, comes through the walk as it is. *)
Lemma replaced_same name new entries :
  ∀ before,
    URLSearchParams.getAll name entries
    = take (occurrences name entries) (drop (occurrences name before) new) ->
    replaced [(name, new)] before entries = entries.
Proof.
  induction entries as [|[k v] rest IH]; intros before; [done|].
  cbn [replaced]. rewrite own_property_singleton, occurrences_cons.
  cbn [URLSearchParams.getAll].
  destruct (String.eqb_spec k name) as [->|Hne].
  - rewrite !decide_True by done. intros Hall.
    destruct (drop (occurrences name before) new) as [|first others] eqn:Hdrop;
      [done|].
    simpl in Hall. injection Hall as <- Hall.
    assert (Hrank : new !! occurrences name before = Some v).
    { rewrite <- (Nat.add_0_r (occurrences name before)).
      by rewrite <- lookup_drop, Hdrop. }
    rewrite Hrank. f_equal. apply IH.
    rewrite occurrences_snoc, decide_True by done.
    rewrite Hall. f_equal.
    by rewrite (drop_S _ _ _ Hrank) in Hdrop; injection Hdrop as <-.
  - rewrite !decide_False by done. intros Hall. f_equal. apply IH.
    by rewrite occurrences_snoc, decide_False.
Qed.

Lemma filter_all {A} (f : A -> bool) (items : list A) :
  Forall (fun item => f item = true) items -> List.filter f items = items.
Proof.
  induction 1 as [|item rest Hitem _ IH]; simpl; [done|].
  by rewrite Hitem, IH.
Qed.

Lemma append_entries {T} name (type : TDatatype T) value S :
  urlSearchParams (append name type value S)
  = urlSearchParams S ++ List.map (pair name) (serialize type value).
Proof. unfold append. simpl. apply fold_push. Qed.

(** X4. [set] is idempotent: on the facade it returned, the same [set]
    returns that facade again. *)
Theorem set_idempotent {T} (name : string) (type : TDatatype T) (value : T)
    (S S' : TSafeSearchParams) :
  set name type value S = Return S' ->
  set name type value S' = Return S'.
Proof.
  intros [Hfatal ->]%set_Return.
  set (values := [(name, serialize type value)]) in *.
  set (kept := List.filter (fun entry => negb (lost values entry))
                 (urlSearchParams S)).
  assert (Hentries : ∀ entry,
            entry ∈ merged values kept ->
            fatal values entry = false ∧ lost values entry = false).
  { intros [key v] [[queue Hown]|Hin]%elem_of_merged.
    - unfold fatal, lost, get_property. simpl fst. by rewrite Hown.
    - apply list_elem_of_In, filter_In in Hin as [Hin Hkept].
      apply list_elem_of_In in Hin. rewrite Forall_forall in Hfatal.
      split; [by apply Hfatal | by apply negb_true_iff]. }
  rewrite set_result. fold values. simpl urlSearchParams.
  assert (Hnone : existsb (fatal values) (merged values kept) = false).
  { apply existsb_Forall, Forall_forall. intros entry Hin.
    by apply Hentries. }
  rewrite Hnone, filter_all.
  2: { apply Forall_forall. intros entry Hin. apply negb_true_iff.
       by apply Hentries. }
  do 2 f_equal.
  assert (Hall : URLSearchParams.getAll name (merged values kept)
                 = serialize type value).
  { apply merged_getAll_updated; [apply NoDup_singleton|].
    unfold values. rewrite own_property_singleton. by rewrite decide_True. }
  unfold merged at 1. rewrite (replaced_same name (serialize type value)).
  - unfold leftover, Object_entries, values at 1. simpl.
    unfold occurrences. rewrite Hall, drop_all. simpl.
    by rewrite !app_nil_r.
  - unfold occurrences. rewrite Hall. simpl. by rewrite drop_0, firstn_all.
Qed.

Lemma set_idempotent_witness :
  let S := safeSearchParams [("tag", "1"); ("a", "2"); ("tag", "3")] in
  let S' := safeSearchParams [("tag", "x"); ("a", "2")] in
  set "tag" rString (Some "x") S = Return S'
  ∧ set "tag" rString (Some "x") S' = Return S'.
Proof.
  intros S S'.
  assert (Hset : set "tag" rString (Some "x") S = Return S') by reflexivity.
  split; [exact Hset|].
  exact (set_idempotent "tag" rString (Some "x") S S' Hset).
Defined.

(** X5. On a sequence without the name, and without an entry named as a
    member of [Object.prototype], [set] is [append]. *)
Theorem set_new_name_is_append {T} (name : string) (type : TDatatype T)
    (value : T) (S : TSafeSearchParams) :
  URLSearchParams.getAll name (urlSearchParams S) = [] ->
  no_inherited [(name, serialize type value)] (urlSearchParams S) ->
  set name type value S = Return (append name type value S).
Proof.
  intros Hnew Hplain. rewrite set_merged by done.
  pose proof (append_entries name type value S) as Happend.
  unfold append in *. simpl in Happend. cbv zeta. rewrite Happend.
  do 2 f_equal. unfold merged. f_equal.
  - apply replaced_same. unfold occurrences. by rewrite Hnew.
  - unfold leftover, Object_entries. simpl.
    unfold occurrences. rewrite Hnew. simpl. by rewrite app_nil_r.
Qed.

Lemma set_new_name_is_append_witness :
  let S := safeSearchParams [("a", "1"); ("b", "2")] in
  URLSearchParams.getAll "tag" (urlSearchParams S) = []
  ∧ no_inherited [("tag", ["x"; "y"])] (urlSearchParams S)
  ∧ set "tag" (rMultiple rString) [Some "x"; Some "y"] S
    = Return (append "tag" (rMultiple rString) [Some "x"; Some "y"] S).
Proof.
  intros S.
  assert (Hnew : URLSearchParams.getAll "tag" (urlSearchParams S) = [])
    by reflexivity.
  assert (Hplain : no_inherited [("tag", ["x"; "y"])] (urlSearchParams S)).
  { intros key v Hin _. simpl in Hin.
    apply elem_of_cons in Hin as [[= -> _]|Hin]; [reflexivity|].
    apply elem_of_cons in Hin as [[= -> _]|Hin]; [reflexivity|].
    by apply elem_of_nil in Hin. }
  split; [exact Hnew|]. split; [exact Hplain|].
  exact (set_new_name_is_append "tag" (rMultiple rString)
           [Some "x"; Some "y"] S Hnew Hplain).
Defined.

(** ** append and delete *)

(** X6. [append] puts the serialized value behind the sequence, which it
    leaves as it is: the name gets the new raw values after the ones it
    had, and the other names keep theirs. *)
Theorem append_adds_last {T} (name : string) (type : TDatatype T) (value : T)
    (S : TSafeSearchParams) (key : string) :
  urlSearchParams (append name type value S)
  = urlSearchParams S ++ List.map (pair name) (serialize type value)
  ∧ URLSearchParams.getAll key (urlSearchParams (append name type value S))
    = if decide (name = key)
      then URLSearchParams.getAll key (urlSearchParams S)
           ++ serialize type value
      else URLSearchParams.getAll key (urlSearchParams S).
Proof.
  rewrite append_entries. split; [done|].
  rewrite getAll_app, getAll_pairs.
  case_decide; [done | by rewrite app_nil_r].
Qed.

Lemma delete_filter name (pairs : URLSearchParams.t) :
  URLSearchParams.delete name pairs
  = List.filter (fun entry => negb (String.eqb entry.1 name)) pairs.
Proof.
  induction pairs as [|[key value] rest IH]; simpl; [done|].
  destruct (String.eqb key name); simpl; by rewrite IH.
Qed.

Lemma getAll_delete name key (pairs : URLSearchParams.t) :
  URLSearchParams.getAll key (URLSearchParams.delete name pairs)
  = if decide (name = key) then [] else URLSearchParams.getAll key pairs.
Proof.
  induction pairs as [|[k v] rest IH]; simpl.
  - by case_decide.
  - destruct (String.eqb_spec k name) as [->|Hk].
    + rewrite IH. case_decide as Hkey; [done|].
      by destruct (String.eqb_spec name key).
    + simpl. rewrite IH. destruct (String.eqb_spec k key) as [->|Hne].
      * destruct (decide (name = key)); [congruence | done].
      * done.
Qed.

(** X7. [delete] removes the entries of the name and no other: the
    sequence left is the old one without them, in its order; the name
    has no raw value left, so that [has] denies it for every datatype;
    the other names keep their raw values. *)
Theorem del_removes_name {Out} (name : string) (S : TSafeSearchParams)
    (key : string) (type : TDatatype Out) :
  urlSearchParams (del name S)
  = List.filter (fun entry => negb (String.eqb entry.1 name))
      (urlSearchParams S)
  ∧ URLSearchParams.getAll key (urlSearchParams (del name S))
    = (if decide (name = key) then []
       else URLSearchParams.getAll key (urlSearchParams S))
  ∧ (has name type (del name S)).1 = false.
Proof.
  split; [apply delete_filter|]. split; [apply getAll_delete|].
  rewrite has_fst by apply safeSearchParams_consistent.
  simpl. rewrite getAll_delete. by rewrite decide_True.
Qed.

Lemma delete_delete a b (pairs : URLSearchParams.t) :
  URLSearchParams.delete a (URLSearchParams.delete b pairs)
  = URLSearchParams.delete b (URLSearchParams.delete a pairs).
Proof.
  induction pairs as [|[key value] rest IH]; simpl; [done|].
  destruct (String.eqb key b) eqn:Hb, (String.eqb key a) eqn:Ha; simpl;
    rewrite ?Ha, ?Hb; by rewrite IH.
Qed.

Lemma delete_app name (before after : URLSearchParams.t) :
  URLSearchParams.delete name (before ++ after)
  = URLSearchParams.delete name before ++ URLSearchParams.delete name after.
Proof.
  induction before as [|[key value] rest IH]; simpl; [done|].
  destruct (String.eqb key name); simpl; by rewrite IH.
Qed.

Lemma delete_pairs name (queue : list string) :
  URLSearchParams.delete name (List.map (pair name) queue) = [].
Proof.
  induction queue as [|value rest IH]; simpl; [done|].
  by rewrite String.eqb_refl.
Qed.

(** X8. How [delete] composes: two deletions commute, a second deletion
    of the same name changes nothing, and a deletion undoes an [append]
    to the name. *)
Theorem del_composes {T} (a b : string) (type : TDatatype T) (value : T)
    (S : TSafeSearchParams) :
  del a (del b S) = del b (del a S)
  ∧ del a (del a S) = del a S
  ∧ del a (append a type value S) = del a S.
Proof.
  unfold del, safeSearchParams. simpl. repeat split; f_equal.
  - apply delete_delete.
  - rewrite !delete_filter, filter_all; [done|].
    apply Forall_forall. intros entry Hin.
    by apply list_elem_of_In, filter_In in Hin as [_ Hin].
  - pose proof (append_entries a type value S) as Happend.
    unfold append in Happend. simpl in Happend. rewrite Happend.
    by rewrite delete_app, delete_pairs, app_nil_r.
Qed.

(** ** getObj and getObjOrThrow *)

Lemma getObj_field_step {Out} name (type : TDatatype Out)
    (rest : list (string * TDatatype Out)) output S :
  for_each getObj_field ((name, type) :: rest) output S
  = for_each getObj_field rest
      (set_property output name (get name type S).1) (get name type S).2.
Proof.
  assert (Hfield : getObj_field output (name, type) S
                   = (set_property output name (get name type S).1,
                      (get name type S).2)).
  { unfold getObj_field, mbind, Method_bind, mret, Method_ret.
    by destruct (get name type S). }
  cbn [for_each]. unfold mbind at 1. unfold Method_bind at 1.
  by rewrite Hfield.
Qed.

Lemma getObj_fields {Out} (S : TSafeSearchParams)
    (fields : list (string * TDatatype Out)) :
  cache_consistent S ->
  ∀ output S0,
    cache_consistent S0 ->
    urlSearchParams S0 = urlSearchParams S ->
    ∃ S',
      for_each getObj_field fields output S0
      = (fold_left (fun object entry => set_property object entry.1 entry.2)
           (List.map (fun '(name, type) => (name, (get name type S).1))
              fields)
           output,
         S')
      ∧ urlSearchParams S' = urlSearchParams S
      ∧ cache_consistent S'.
Proof.
  intros HS.
  induction fields as [|[name type] rest IH]; intros output S0 HS0 Hsame.
  { exists S0. done. }
  rewrite getObj_field_step.
  pose proof (get_consistent name type S0 HS0) as [Hsame' HS1].
  destruct (IH (set_property output name (get name type S0).1)
              (get name type S0).2 HS1) as (S' & Hrest & HS');
    [congruence|].
  exists S'. split; [|done]. rewrite Hrest. cbn [List.map fold_left fst snd].
  by rewrite (get_fst name type S HS), (get_fst name type S0 HS0), Hsame.
Qed.

(** X9. [getObj] fills an object with what [get] answers for each field
    of the schema, in the order of the schema; no field makes it
    fail. *)
Theorem getObj_reads_each_field {Out} (obj : JsObject (TDatatype Out))
    (S : TSafeSearchParams) :
  cache_consistent S ->
  (getObj obj S).1
  = Object_fromEntries
      (List.map (fun '(name, type) => (name, (get name type S).1))
         (Object_entries obj)).
Proof.
  intros HS.
  destruct (getObj_fields S (Object_entries obj) HS [] S HS eq_refl)
    as (S' & Hfields & _).
  unfold getObj. by rewrite Hfields.
Qed.

Lemma getObj_reads_each_field_witness :
  let S := safeSearchParams [("a", "1"); ("b", "x"); ("c", "hey")] in
  cache_consistent S
  ∧ (getObj [("a", rEnum ["1"; "2"]); ("b", rEnum ["1"; "2"]);
             ("d", rEnum ["1"; "2"])] S).1
    = [("a", Some (Some "1")); ("b", None); ("d", Some None)].
Proof.
  intros S.
  assert (HS : cache_consistent S).
  { intros name all Hcache. simpl in Hcache.
    rewrite lookup_empty in Hcache. discriminate. }
  split; [exact HS|].
  exact (getObj_reads_each_field
           [("a", rEnum ["1"; "2"]); ("b", rEnum ["1"; "2"]);
            ("d", rEnum ["1"; "2"])] S HS).
Defined.

Lemma getObjOrThrow_step {Out} name (type : TDatatype Out)
    (rest : list (string * TDatatype Out)) output S :
  getObjOrThrow_fields ((name, type) :: rest) output S
  = match (getOrThrow name type S).1 with
    | Throw exception => (Throw exception, (getOrThrow name type S).2)
    | Return value =>
        getObjOrThrow_fields rest (set_property output name value)
          (getOrThrow name type S).2
    end.
Proof.
  cbn [getObjOrThrow_fields]. unfold mbind at 1. unfold Method_bind at 1.
  by destruct (getOrThrow name type S) as [[value|exception] S'].
Qed.

Lemma getObjOrThrow_all {Out} (S : TSafeSearchParams)
    (fields : list (string * TDatatype Out)) (values : list Out) :
  Forall2
    (fun field value =>
       parse field.2 (URLSearchParams.getAll field.1 (urlSearchParams S))
       = Valid value)
    fields values ->
  ∀ output S0,
    cache_consistent S0 ->
    urlSearchParams S0 = urlSearchParams S ->
    (getObjOrThrow_fields fields output S0).1
    = Return
        (fold_left (fun object entry => set_property object entry.1 entry.2)
           (zip fields.*1 values) output).
Proof.
  induction 1 as [|[name type] value rest values Hvalue _ IH];
    intros output S0 HS0 Hsame; [done|].
  rewrite getObjOrThrow_step.
  pose proof (getOrThrow_consistent name type S0 HS0) as [Hsame' HS1].
  rewrite (getOrThrow_fst name type S0 HS0). cbv zeta.
  simpl in Hvalue. rewrite Hsame, Hvalue.
  rewrite IH; [done | done | congruence].
Qed.

Lemma getObjOrThrow_failure {Out} (S : TSafeSearchParams)
    (before : list (string * TDatatype Out)) name type after reason :
  Forall
    (fun field =>
       valid (parse field.2
                (URLSearchParams.getAll field.1 (urlSearchParams S)))
       = true)
    before ->
  parse type (URLSearchParams.getAll name (urlSearchParams S))
  = Invalid reason ->
  ∀ output S0,
    cache_consistent S0 ->
    urlSearchParams S0 = urlSearchParams S ->
    (getObjOrThrow_fields (before ++ (name, type) :: after) output S0).1
    = Throw
        (createSafeSearchParamsErreur name type
           (URLSearchParams.getAll name (urlSearchParams S)) reason).
Proof.
  intros Hbefore Hinvalid.
  induction Hbefore as [|[n t] before Hvalid _ IH];
    intros output S0 HS0 Hsame; simpl app; rewrite getObjOrThrow_step.
  - rewrite (getOrThrow_fst name type S0 HS0). cbv zeta.
    by rewrite Hsame, Hinvalid.
  - pose proof (getOrThrow_consistent n t S0 HS0) as [Hsame' HS1].
    rewrite (getOrThrow_fst n t S0 HS0). cbv zeta. rewrite Hsame.
    simpl in Hvalid.
    destruct (parse t (URLSearchParams.getAll n (urlSearchParams S)));
      [|done].
    apply IH; [done | congruence].
Qed.

(** X10. [getObjOrThrow] visits the fields in the order of the schema
    and throws the error of the first field that its datatype rejects,
    the one [getOrThrow] throws for it; when every field is accepted it
    returns the object of the parsed values. *)
Theorem getObjOrThrow_first_failure {Out} (obj : JsObject (TDatatype Out))
    (S : TSafeSearchParams) :
  cache_consistent S ->
  (∀ values,
     Forall2
       (fun field value =>
          parse field.2 (URLSearchParams.getAll field.1 (urlSearchParams S))
          = Valid value)
       (Object_entries obj) values ->
     (getObjOrThrow obj S).1
     = Return (Object_fromEntries (zip (Object_entries obj).*1 values)))
  ∧ (∀ before name type after reason,
       Object_entries obj = before ++ (name, type) :: after ->
       Forall
         (fun field =>
            valid (parse field.2
                     (URLSearchParams.getAll field.1 (urlSearchParams S)))
            = true)
         before ->
       parse type (URLSearchParams.getAll name (urlSearchParams S))
       = Invalid reason ->
       (getObjOrThrow obj S).1
       = Throw
           (createSafeSearchParamsErreur name type
              (URLSearchParams.getAll name (urlSearchParams S)) reason)).
Proof.
  intros HS. split.
  - intros values Hvalues. unfold getObjOrThrow.
    by rewrite (getObjOrThrow_all S _ values Hvalues [] S HS eq_refl).
  - intros before name type after reason Hfields Hbefore Hinvalid.
    unfold getObjOrThrow. rewrite Hfields.
    by apply getObjOrThrow_failure.
Qed.

Lemma getObjOrThrow_first_failure_witness :
  let S := safeSearchParams [("a", "1"); ("b", "x"); ("c", "y")] in
  let type := rEnum ["1"; "2"] in
  cache_consistent S
  ∧ (getObjOrThrow [("a", type); ("d", type)] S).1
    = Return [("a", Some "1"); ("d", None)]
  ∧ (getObjOrThrow [("a", type); ("b", type); ("c", type)] S).1
    = Throw (createSafeSearchParamsErreur "b" type ["x"] "Invalid value").
Proof.
  intros S type.
  assert (HS : cache_consistent S).
  { intros name all Hcache. simpl in Hcache.
    rewrite lookup_empty in Hcache. discriminate. }
  split; [exact HS|]. split.
  - apply (proj1 (getObjOrThrow_first_failure [("a", type); ("d", type)] S HS)
             [Some "1"; None]).
    repeat constructor.
  - apply (proj2 (getObjOrThrow_first_failure
                    [("a", type); ("b", type); ("c", type)] S HS)
             [("a", type)] "b" type [("c", type)] "Invalid value").
    + reflexivity.
    + repeat constructor.
    + reflexivity.
Defined.

(** ** The cache *)

Lemma getObjOrThrow_fields_consistent {Out}
    (fields : list (string * TDatatype Out)) :
  ∀ output S,
    cache_consistent S ->
    keeps_facade (getObjOrThrow_fields fields output) S.
Proof.
  induction fields as [|[name type] rest IH]; intros output S HS.
  { done. }
  unfold keeps_facade. rewrite getObjOrThrow_step.
  pose proof (getOrThrow_consistent name type S HS) as [Hsame HS'].
  destruct (getOrThrow name type S).1 as [value|exception]; [|done].
  destruct (IH (set_property output name value) _ HS') as [Hsame' HS''].
  split; [congruence | done].
Qed.

Lemma setInternal_Return values S S' :
  setInternal values S = Return S' -> cache S' = ∅.
Proof.
  rewrite setInternal_result. cbv zeta.
  destruct (existsb _ (urlSearchParams S)); [done|]. by intros [= <-].
Qed.

Lemma empty_cache_consistent S : cache S = ∅ -> cache_consistent S.
Proof. intros Hempty name all. by rewrite Hempty, lookup_empty. Qed.

(** X11. The invariant of the facade: the reads leave the sequence as
    it is and the cache in agreement with it, and every facade that a
    write returns has a cache that agrees with its sequence. *)
Theorem facade_stays_consistent {Out} (S : TSafeSearchParams) (name : string)
    (type : TDatatype Out) (value : Out) (obj : JsObject (TDatatype Out))
    (schema : JsObject (TDatatypeAny Out)) (values : JsObject (option Out)) :
  cache_consistent S ->
  keeps_facade (get name type) S
  ∧ keeps_facade (getOrThrow name type) S
  ∧ keeps_facade (has name type) S
  ∧ keeps_facade (getObj obj) S
  ∧ keeps_facade (getObjOrThrow obj) S
  ∧ cache_consistent (append name type value S)
  ∧ cache_consistent (del name S)
  ∧ cache_consistent (sort S)
  ∧ (∀ S', set name type value S = Return S' -> cache_consistent S')
  ∧ (∀ S', setObj schema values S = Return S' -> cache_consistent S').
Proof.
  intros HS.
  split; [by apply get_consistent|].
  split; [by apply getOrThrow_consistent|].
  split; [by apply has_consistent|].
  split.
  { destruct (getObj_fields S (Object_entries obj) HS [] S HS eq_refl)
      as (S' & Hfields & HS').
    unfold keeps_facade, getObj. by rewrite Hfields. }
  split; [by apply getObjOrThrow_fields_consistent|].
  split; [apply safeSearchParams_consistent|].
  split; [apply safeSearchParams_consistent|].
  split; [apply safeSearchParams_consistent|].
  split.
  - intros S' Hset. unfold set in Hset.
    by apply setInternal_Return, empty_cache_consistent in Hset.
  - intros S'. unfold setObj.
    destruct (for_of _ _ _) as [nextValues|exception]; [|done].
    cbn [mbind Completion_bind]. intros Hset.
    by apply setInternal_Return, empty_cache_consistent in Hset.
Qed.

Lemma facade_stays_consistent_witness :
  let S := (get "a" rString
              (safeSearchParams [("a", "1"); ("b", "2")])).2 in
  cache S !! "a" = Some ["1"]
  ∧ cache_consistent S
  ∧ keeps_facade (get "b" rString) S
  ∧ cache_consistent (del "a" S).
Proof.
  intros S.
  assert (HS : cache_consistent S).
  { apply (get_consistent "a" rString), safeSearchParams_consistent. }
  split; [reflexivity|]. split; [exact HS|].
  pose proof (facade_stays_consistent S "b" rString None [] [] [] HS)
    as (Hget & _).
  pose proof (facade_stays_consistent S "a" rString None [] [] [] HS)
    as (_ & _ & _ & _ & _ & _ & Hdel & _).
  exact (conj Hget Hdel).
Defined.

Lemma getAllFromCache_after name key S :
  (getAllFromCache key (getAllFromCache name S).2).1
  = (getAllFromCache key S).1
  ∧ ((getAllFromCache name (getAllFromCache name S).2)
     = getAllFromCache name S).
Proof.
  unfold getAllFromCache.
  destruct (cache S !! name) as [all|] eqn:Hname; simpl.
  - by rewrite Hname.
  - split.
    + rewrite lookup_insert. case_decide as Hkey.
      * subst key. by rewrite Hname.
      * by destruct (cache S !! key).
    + by rewrite lookup_insert_eq.
Qed.

Lemma get_state {Out} name (type : TDatatype Out) S :
  get name type S
  = (match parse type (getAllFromCache name S).1 with
     | Valid value => Some value
     | Invalid _ => None
     end,
     (getAllFromCache name S).2).
Proof.
  unfold get, getInternal, mbind, Method_bind, mret, Method_ret.
  destruct (getAllFromCache name S) as [all S']. simpl.
  by destruct (parse type all).
Qed.

(** X12. Reads do not disturb one another, whatever the cache holds: a
    read after a [get] answers as it would have before, and the same
    [get] again finds its answer and leaves the facade as it found
    it. *)
Theorem reads_repeat {Out Out'} (name key : string) (type : TDatatype Out)
    (type' : TDatatype Out') (S : TSafeSearchParams) :
  (get key type' (get name type S).2).1 = (get key type' S).1
  ∧ get name type (get name type S).2 = get name type S.
Proof.
  pose proof (getAllFromCache_after name key S) as [Hother Hsame].
  rewrite !get_state. simpl. by rewrite Hother, Hsame.
Qed.

(** X13. Sorting changes no read: [get], [getOrThrow] and [has] answer
    on the sorted facade as on the one it was made from, whatever the
    name and the datatype. *)
Theorem sort_keeps_reads {Out} (name : string) (type : TDatatype Out)
    (S : TSafeSearchParams) :
  cache_consistent S ->
  (get name type (sort S)).1 = (get name type S).1
  ∧ (getOrThrow name type (sort S)).1 = (getOrThrow name type S).1
  ∧ (has name type (sort S)).1 = (has name type S).1.
Proof.
  intros HS.
  rewrite !get_fst, !getOrThrow_fst, !has_fst
    by (done || apply safeSearchParams_consistent).
  simpl. by rewrite !getAll_sort.
Qed.

Lemma sort_keeps_reads_witness :
  let S := safeSearchParams [("tag", "b"); ("a", "1"); ("tag", "a")] in
  cache_consistent S
  ∧ urlSearchParams (sort S) = [("a", "1"); ("tag", "b"); ("tag", "a")]
  ∧ (get "tag" (rMultiple rString) (sort S)).1
    = (get "tag" (rMultiple rString) S).1.
Proof.
  intros S.
  assert (HS : cache_consistent S).
  { intros name all Hcache. simpl in Hcache.
    rewrite lookup_empty in Hcache. discriminate. }
  split; [exact HS|]. split; [reflexivity|].
  exact (proj1 (sort_keeps_reads "tag" (rMultiple rString) S HS)).
Defined.

(** X14. When [has] answers [true], [get] returns a parsed value and
    [getOrThrow] returns the same without throwing. *)
Theorem has_then_get {Out} (name : string) (type : TDatatype Out)
    (S : TSafeSearchParams) :
  cache_consistent S ->
  (has name type S).1 = true ->
  ∃ value,
    (get name type S).1 = Some value
    ∧ (getOrThrow name type S).1 = Return value.
Proof.
  intros HS. rewrite has_fst, get_fst, getOrThrow_fst by done. cbv zeta.
  destruct (URLSearchParams.getAll name (urlSearchParams S)) as [|first rest];
    [done|].
  destruct (parse type (first :: rest)) as [value|reason]; [|done].
  intros _. by exists value.
Qed.

Lemma has_then_get_witness :
  let S := safeSearchParams [("a", "1"); ("b", "2"); ("c", "hey")] in
  cache_consistent S
  ∧ (has "a" (rEnum ["1"; "2"]) S).1 = true
  ∧ ∃ value,
      (get "a" (rEnum ["1"; "2"]) S).1 = Some value
      ∧ (getOrThrow "a" (rEnum ["1"; "2"]) S).1 = Return value.
Proof.
  intros S.
  assert (HS : cache_consistent S).
  { intros name all Hcache. simpl in Hcache.
    rewrite lookup_empty in Hcache. discriminate. }
  assert (Hhas : (has "a" (rEnum ["1"; "2"]) S).1 = true) by reflexivity.
  split; [exact HS|]. split; [exact Hhas|].
  exact (has_then_get "a" (rEnum ["1"; "2"]) S HS Hhas).
Defined.

(** ** rRequired *)

(** X15. [rRequired(d)] accepts the raw values that [d] parses to a
    value other than [null], with that value; it rejects with
    [Missing value] those that [d] parses to [null], and with the reason
    of [d] those that [d] rejects. *)
Theorem rRequired_accepts {A} (d : TDatatype (option A))
    (input : list string) :
  (∀ value,
     parse (rRequired d) input = Valid value
     ↔ parse d input = Valid (Some value))
  ∧ (parse d input = Valid None ->
     parse (rRequired d) input = Invalid "Missing value")
  ∧ (∀ reason,
       parse d input = Invalid reason ->
       parse (rRequired d) input = Invalid reason).
Proof.
  simpl. destruct (parse d input) as [[value|]|reason]; simpl.
  - split; [|done]. intros v. split; congruence.
  - split; [|done]. intros v. split; congruence.
  - split; [|split; [done|congruence]]. intros v. split; congruence.
Qed.

Lemma rRequired_accepts_witness :
  (parse (rEnum ["1"; "2"]) [] = Valid None
   ∧ parse (rRequired (rEnum ["1"; "2"])) [] = Invalid "Missing value")
  ∧ (parse (rEnum ["1"; "2"]) ["3"] = Invalid "Invalid value"
     ∧ parse (rRequired (rEnum ["1"; "2"])) ["3"] = Invalid "Invalid value")
  ∧ (parse (rEnum ["1"; "2"]) ["2"] = Valid (Some "2")
     ∧ parse (rRequired (rEnum ["1"; "2"])) ["2"] = Valid "2").
Proof.
  split; [|split].
  - split; [reflexivity|].
    exact (proj1 (proj2 (rRequired_accepts (rEnum ["1"; "2"]) []))
             eq_refl).
  - split; [reflexivity|].
    exact (proj2 (proj2 (rRequired_accepts (rEnum ["1"; "2"]) ["3"]))
             "Invalid value" eq_refl).
  - split; [reflexivity|].
    exact (proj2 (proj1 (rRequired_accepts (rEnum ["1"; "2"]) ["2"]) "2")
             eq_refl).
Defined.

(** X16. A name without entry under [rRequired(d)], for a datatype [d]
    that reads the empty list as [null]: [getOrThrow] throws the error
    with the reason [Missing value] and no raw value, where
    [getOrThrow] with [d] itself returns [null]; [get] returns [null]
    and [has] answers [false]. *)
Theorem rRequired_absent_name {A} (d : TDatatype (option A))
    (property : string) (S : TSafeSearchParams) :
  cache_consistent S ->
  URLSearchParams.getAll property (urlSearchParams S) = [] ->
  parse d [] = Valid None ->
  (getOrThrow property (rRequired d) S).1
  = Throw (SafeSearchParamsErreur
      ("Failed to validate " +:+ (rRequired d).(name)
         +:+ " rule for property " +:+ quote +:+ property +:+ quote
         +:+ " with values: . Missing value")
      {| Out := A; datatype := rRequired d; property := property;
         values := []; error := "Missing value" |})
  ∧ (getOrThrow property d S).1 = Return None
  ∧ (get property (rRequired d) S).1 = None
  ∧ (has property (rRequired d) S).1 = false.
Proof.
  intros HS Habsent Hnull.
  rewrite !getOrThrow_fst, get_fst, has_fst by done. cbv zeta.
  rewrite Habsent. simpl. rewrite Hnull. simpl.
  repeat split.
Qed.

Lemma rRequired_absent_name_witness :
  let S := safeSearchParams [("a", "1"); ("b", "2"); ("c", "hey")] in
  cache_consistent S
  ∧ URLSearchParams.getAll "d" (urlSearchParams S) = []
  ∧ parse rString [] = Valid None
  ∧ (getOrThrow "d" (rRequired rString) S).1
    = Throw (SafeSearchParamsErreur
        ("Failed to validate Required<String> rule for property "
           +:+ quote +:+ "d" +:+ quote +:+ " with values: . Missing value")
        {| Out := string; datatype := rRequired rString; property := "d";
           values := []; error := "Missing value" |})
  ∧ (getOrThrow "d" rString S).1 = Return None.
Proof.
  intros S.
  assert (HS : cache_consistent S).
  { intros name all Hcache. simpl in Hcache.
    rewrite lookup_empty in Hcache. discriminate. }
  split; [exact HS|]. split; [reflexivity|]. split; [reflexivity|].
  pose proof (rRequired_absent_name rString "d" S HS eq_refl eq_refl)
    as (Hthrow & Hnull & _).
  exact (conj Hthrow Hnull).
Defined.

(** ** Round trips of the datatypes *)

Lemma includes_elem (items : list string) (searched : string) :
  includes items searched = true ↔ searched ∈ items.
Proof.
  induction items as [|item rest IH]; simpl.
  - split; [done | by intros ?%elem_of_nil].
  - rewrite elem_of_cons, <- IH.
    destruct (String.eqb_spec item searched) as [->|Hne]; simpl.
    + split; [by left | done].
    + split; [by right | intros [?|?]; [congruence | done]].
Qed.

(** X17. What [rString], [rInteger], [rRegex] and [rEnum] parse from a
    list of raw values serializes back to the first of them: the value
    read from a key is written as it stood. *)
Theorem parsed_value_serializes_back `{JsHost} (x : string)
    (extras : list string) (regex : RegExp) (values : list string) :
  (∀ v, parse rString (x :: extras) = Valid v -> serialize rString v = [x])
  ∧ (∀ v, parse rInteger (x :: extras) = Valid v ->
       serialize rInteger v = [x])
  ∧ (∀ v, parse (rRegex regex) (x :: extras) = Valid v ->
       serialize (rRegex regex) v = [x])
  ∧ (∀ v, parse (rEnum values) (x :: extras) = Valid v ->
       serialize (rEnum values) v = [x]).
Proof.
  repeat split; intros v; simpl.
  - by intros [= <-].
  - destruct (_ || _); [done|].
    destruct (String.eqb_spec (toFixed (parseInt x 10)) x) as [Hx|]; [|done].
    simpl. intros [= <-]. by rewrite Hx.
  - destruct (RegExp_test regex x); [|done]. simpl. by intros [= <-].
  - destruct (includes values x); [|done]. simpl. by intros [= <-].
Qed.

Lemma parsed_value_serializes_back_witness :
  let seven := S754_finite false 7 0 in
  let host := {| parseInt := fun s _ =>
                   if String.eqb s "7" then seven else S754_nan;
                 toFixed := fun n =>
                   match n with
                   | S754_finite false 7 0 => "7"
                   | _ => "NaN"
                   end;
                 RegExp := string;
                 RegExp_source := fun regex => regex;
                 RegExp_test := String.eqb |} in
  (parse rString ["7"; "8"] = Valid (Some "7")
   ∧ serialize rString (Some "7") = ["7"])
  ∧ (parse rInteger ["7"; "8"] = Valid (Some seven)
     ∧ serialize rInteger (Some seven) = ["7"])
  ∧ (parse (rRegex "7") ["7"; "8"] = Valid (Some "7")
     ∧ serialize (rRegex "7") (Some "7") = ["7"])
  ∧ (parse (rEnum ["7"]) ["7"; "8"] = Valid (Some "7")
     ∧ serialize (rEnum ["7"]) (Some "7") = ["7"]).
Proof.
  intros seven host.
  pose proof (parsed_value_serializes_back (H := host) "7" ["8"] "7" ["7"])
    as (Hstring & Hinteger & Hregex & Henum).
  split; [|split; [|split]]; (split; [reflexivity|]).
  - exact (Hstring (Some "7") eq_refl).
  - exact (Hinteger (Some seven) eq_refl).
  - exact (Hregex (Some "7") eq_refl).
  - exact (Henum (Some "7") eq_refl).
Defined.

(** X18. What the datatypes serialize parses back to the value:
    always for [rString] and [rPresent], for [null] and the listed
    strings for [rEnum] and for [null] and the strings the expression
    accepts for [rRegex]; the other strings are rejected when read
    back. *)
Theorem serialized_value_parses_back `{JsHost} (regex : RegExp)
    (values : list string) (s : string) :
  (∀ v, parse rString (serialize rString v) = Valid v)
  ∧ (∀ b, parse rPresent (serialize rPresent b) = Valid b)
  ∧ parse (rEnum values) (serialize (rEnum values) None) = Valid None
  ∧ parse (rRegex regex) (serialize (rRegex regex) None) = Valid None
  ∧ parse (rEnum values) (serialize (rEnum values) (Some s))
    = (if decide (s ∈ values) then Valid (Some s)
       else Invalid "Invalid value")
  ∧ parse (rRegex regex) (serialize (rRegex regex) (Some s))
    = (if RegExp_test regex s then Valid (Some s)
       else Invalid "Invalid value").
Proof.
  split; [by intros [v|]|]. split; [by intros [|]|].
  split; [done|]. split; [done|]. split; simpl.
  - pose proof (includes_elem values s) as Hin.
    destruct (includes values s); case_decide as Hs; simpl; try done.
    + destruct Hs. by apply Hin.
    + by apply Hin in Hs.
  - by destruct (RegExp_test regex s).
Qed.

(** [rEnum] reads the first raw value and nothing else: no raw
    value gives [null], a first value of the list gives that value, and
    any other first value is rejected, so that no string outside the
    list is ever returned. *)
Theorem rEnum_parses_members (values : list string) (input : list string) :
  parse (rEnum values) input
  = match input with
    | [] => Valid None
    | x :: _ =>
        if decide (x ∈ values) then Valid (Some x)
        else Invalid "Invalid value"
    end.
Proof.
  destruct input as [|x rest]; simpl; [done|].
  pose proof (includes_elem values x) as Hin.
  destruct (includes values x); case_decide as Hx; simpl; try done.
  - destruct Hx. by apply Hin.
  - by apply Hin in Hx.
Qed.

(** X19. An integer that [rInteger] accepts is a finite number, never
    [NaN], whose [toFixed()] is the first raw value letter for
    letter. *)
Theorem rInteger_accepts_finite `{JsHost} (input : list string) (n : Number) :
  parse rInteger input = Valid (Some n) ->
  Number_isNaN n = false
  ∧ Number_isFinite n = true
  ∧ ∃ x extras,
      input = x :: extras ∧ n = parseInt x 10 ∧ toFixed n = x.
Proof.
  destruct input as [|x extras]; simpl; [done|].
  destruct (Number_isNaN _) eqn:Hnan; simpl; [done|].
  destruct (Number_isFinite _) eqn:Hfinite; simpl; [|done].
  destruct (String.eqb_spec (toFixed (parseInt x 10)) x) as [Hx|]; [|done].
  simpl. intros [= <-]. split; [done|]. split; [done|].
  by exists x, extras.
Qed.

Lemma rInteger_accepts_finite_witness :
  let seven := S754_finite false 7 0 in
  let host := {| parseInt := fun s _ =>
                   if String.eqb s "7" then seven else S754_nan;
                 toFixed := fun n =>
                   match n with
                   | S754_finite false 7 0 => "7"
                   | _ => "NaN"
                   end;
                 RegExp := string;
                 RegExp_source := fun regex => regex;
                 RegExp_test := String.eqb |} in
  parse rInteger ["7"; "8"] = Valid (Some seven)
  ∧ Number_isNaN seven = false
  ∧ Number_isFinite seven = true.
Proof.
  intros seven host.
  assert (Hparse : parse rInteger ["7"; "8"] = Valid (Some seven))
    by reflexivity.
  split; [exact Hparse|].
  pose proof (rInteger_accepts_finite (H := host) ["7"; "8"] seven Hparse)
    as (Hnan & Hfinite & _).
  exact (conj Hnan Hfinite).
Defined.

(** ** rMultiple and rPresent *)

Lemma rMultiple_serialize_concat {TOut} (subType : TDatatype TOut) output :
  ∀ values,
    rMultiple_serialize subType output values
    = values ++ concat (List.map (serialize subType) output).
Proof.
  induction output as [|value rest IH]; intros values; simpl.
  - by rewrite app_nil_r.
  - by rewrite IH, <- app_assoc.
Qed.

Lemma serialized_one_each {TOut} (d : TDatatype TOut) (vs : list TOut) :
  Forall (fun v => ∃ x, serialize d v = [x] ∧ parse d [x] = Valid v) vs ->
  ∃ xs,
    concat (List.map (serialize d) vs) = xs
    ∧ Forall2 (fun x v => parse d [x] = Valid v) xs vs.
Proof.
  induction 1 as [|v vs (x & Hx & Hv) _ (xs & Hxs & Hvs)]; simpl.
  - by exists [].
  - exists (x :: xs). rewrite Hx, Hxs. split; [done | by constructor].
Qed.

(** X20. [rMultiple(d)] serializes an array to the raw values of its
    elements, one after the other; an array whose elements [d]
    serializes to one raw value each, which [d] parses back, is read
    back as it was. *)
Theorem rMultiple_round_trip {TOut} (d : TDatatype TOut) (vs : list TOut) :
  serialize (rMultiple d) vs = concat (List.map (serialize d) vs)
  ∧ (Forall (fun v => ∃ x, serialize d v = [x] ∧ parse d [x] = Valid v)
       vs ->
     parse (rMultiple d) (serialize (rMultiple d) vs) = Valid vs).
Proof.
  assert (Hserialize : serialize (rMultiple d) vs
                       = concat (List.map (serialize d) vs)).
  { simpl. by rewrite rMultiple_serialize_concat. }
  split; [done|]. intros Hvs. rewrite Hserialize.
  destruct (serialized_one_each d vs Hvs) as (xs & -> & Hxs).
  simpl. by rewrite (rMultiple_parse_valid d xs vs Hxs []).
Qed.

Lemma rMultiple_round_trip_witness :
  Forall (fun v => ∃ x, serialize (rEnum ["1"; "2"]) v = [x]
                        ∧ parse (rEnum ["1"; "2"]) [x] = Valid v)
    [Some "2"; Some "1"]
  ∧ parse (rMultiple (rEnum ["1"; "2"]))
      (serialize (rMultiple (rEnum ["1"; "2"])) [Some "2"; Some "1"])
    = Valid [Some "2"; Some "1"].
Proof.
  assert (Hvs : Forall
            (fun v => ∃ x, serialize (rEnum ["1"; "2"]) v = [x]
                           ∧ parse (rEnum ["1"; "2"]) [x] = Valid v)
            [Some "2"; Some "1"]).
  { repeat constructor; eexists; split; reflexivity. }
  split; [exact Hvs|].
  exact (proj2 (rMultiple_round_trip (rEnum ["1"; "2"]) [Some "2"; Some "1"])
           Hvs).
Defined.

Lemma rString_each (xs : list string) :
  Forall2 (fun x v => parse rString [x] = Valid v) xs (Some <$> xs).
Proof. induction xs as [|x xs IH]; by constructor. Qed.

Lemma rString_serialize_concat (vs : list (option string)) :
  concat (List.map (serialize rString) vs) = omap id vs.
Proof.
  induction vs as [|v vs IH]; [done|].
  cbn [List.map concat]. rewrite IH. by destruct v.
Qed.

(** X21. [rMultiple(rString())] accepts every list of raw values and
    reads it as it is, one string per raw value and no [null]; it
    serializes an array to its strings, so that the [null]s of an array
    are lost on the way back. *)
Theorem rMultiple_rString_reads_all (xs : list string)
    (vs : list (option string)) :
  parse (rMultiple rString) xs = Valid (Some <$> xs)
  ∧ serialize (rMultiple rString) vs = omap id vs
  ∧ parse (rMultiple rString) (serialize (rMultiple rString) vs)
    = Valid (Some <$> omap id vs).
Proof.
  assert (Hparse : ∀ raw,
            parse (rMultiple rString) raw = Valid (Some <$> raw)).
  { intros raw. simpl.
    by rewrite (rMultiple_parse_valid rString raw _ (rString_each raw) []). }
  split; [apply Hparse|].
  assert (Hserialize : serialize (rMultiple rString) vs = omap id vs).
  { simpl. by rewrite rMultiple_serialize_concat, rString_serialize_concat. }
  split; [done|]. by rewrite Hserialize, Hparse.
Qed.

(** X22. [rPresent] tells whether the name has an entry: [get] and
    [getOrThrow] return [true] when it has one and [false] when it has
    none, never [null] and never an error, and [has] answers the
    same. *)
Theorem rPresent_tells_presence (name : string) (S : TSafeSearchParams) :
  cache_consistent S ->
  let present :=
    bool_decide (URLSearchParams.getAll name (urlSearchParams S) ≠ []) in
  (get name rPresent S).1 = Some present
  ∧ (getOrThrow name rPresent S).1 = Return present
  ∧ (has name rPresent S).1 = present.
Proof.
  intros HS present. unfold present.
  rewrite get_fst, getOrThrow_fst, has_fst by done. cbv zeta.
  by destruct (URLSearchParams.getAll name (urlSearchParams S)).
Qed.

Lemma rPresent_tells_presence_witness :
  let S := safeSearchParams [("a", "1"); ("b", "2")] in
  cache_consistent S
  ∧ (get "a" rPresent S).1 = Some true
  ∧ (has "c" rPresent S).1 = false.
Proof.
  intros S.
  assert (HS : cache_consistent S).
  { intros name all Hcache. simpl in Hcache.
    rewrite lookup_empty in Hcache. discriminate. }
  split; [exact HS|]. split.
  - exact (proj1 (rPresent_tells_presence "a" S HS)).
  - exact (proj2 (proj2 (rPresent_tells_presence "c" S HS))).
Defined.

(** ** setObj, then a read *)

Lemma own_property_fold_other {V} (entries : list (string * V)) key :
  key ∉ entries.*1 ->
  ∀ object,
    own_property
      (fold_left (fun object entry => set_property object entry.1 entry.2)
         entries object) key
    = own_property object key.
Proof.
  induction entries as [|[k v] rest IH]; intros Hfresh object; [done|].
  rewrite fmap_cons in Hfresh. apply not_elem_of_cons in Hfresh as [Hne Hrest].
  cbn [fold_left]. rewrite IH by done. simpl.
  rewrite own_property_set. by rewrite decide_False by done.
Qed.

Lemma own_property_fold {V} (entries : list (string * V)) key value :
  NoDup entries.*1 ->
  (key, value) ∈ entries ->
  ∀ object,
    own_property
      (fold_left (fun object entry => set_property object entry.1 entry.2)
         entries object) key
    = Some value.
Proof.
  induction entries as [|[k v] rest IH]; intros Hnodup Hin object.
  { by apply elem_of_nil in Hin. }
  rewrite fmap_cons in Hnodup. apply NoDup_cons in Hnodup as [Hfresh Hnodup].
  cbn [fold_left]. apply elem_of_cons in Hin as [[= -> ->]|Hin].
  - rewrite own_property_fold_other by done. simpl.
    rewrite own_property_set. by rewrite decide_True.
  - by apply IH.
Qed.

Lemma serialized_fields_names {Out} (obj : JsObject (TDatatypeAny Out))
    (values : list (string * option Out)) :
  Forall (serializes obj) values ->
  (serialized_fields obj values).*1 = values.*1.
Proof.
  induction 1 as [|[name value] rest (type & serialized & Htype & Hvalue) _ IH];
    [done|].
  simpl in Htype, Hvalue.
  rewrite (serialized_fields_cons obj name value rest type serialized)
    by done.
  by rewrite !fmap_cons, IH.
Qed.

Lemma elem_of_serialized_fields {Out} (obj : JsObject (TDatatypeAny Out))
    (values : list (string * option Out)) name value type serialized :
  (name, value) ∈ values ->
  own_property obj name = Some type ->
  serialize_any type value = Return serialized ->
  (name, serialized) ∈ serialized_fields obj values.
Proof.
  unfold serialized_fields, Object_entries. intros Hin Htype Hvalue.
  apply list_elem_of_In, in_flat_map. exists (name, value).
  split; [by apply list_elem_of_In|]. rewrite Htype, Hvalue. by left.
Qed.

(** X23. The round trip through a batch update: whenever [setObj]
    returns, each field of [values] has in the new facade the raw
    values that its datatype serialized for it. *)
Theorem setObj_then_getAll {Out} (obj : JsObject (TDatatypeAny Out))
    (values : JsObject (option Out)) (S S' : TSafeSearchParams)
    (name : string) (value : option Out) (type : TDatatypeAny Out) :
  setObj obj values S = Return S' ->
  NoDup (Object_entries values).*1 ->
  (name, value) ∈ Object_entries values ->
  own_property obj name = Some type ->
  serialize_any type value
  = Return (URLSearchParams.getAll name (urlSearchParams S')).
Proof.
  unfold setObj. intros Hset Hnodup Hin Htype.
  destruct (for_of (setObj_collect obj) (Object_entries values) [])
    as [nextValues|exception] eqn:Hcollect; [|done].
  pose proof (setObj_collect_Return obj _ _ _ Hcollect) as Hfields.
  rewrite (setObj_collect_all obj _ Hfields []) in Hcollect.
  injection Hcollect as <-. cbn [mbind Completion_bind] in Hset.
  set (nextValues :=
         fold_left (fun object entry => set_property object entry.1 entry.2)
           (serialized_fields obj (Object_entries values)) []) in *.
  rewrite setInternal_result in Hset. cbv zeta in Hset.
  assert (Hqueues : Object_fromEntries (Object_entries nextValues)
                    = nextValues).
  { apply Object_fromEntries_entries, Object_fromEntries_canonical. }
  rewrite Hqueues in Hset.
  destruct (existsb _ (urlSearchParams S)); [done|].
  injection Hset as <-. simpl urlSearchParams.
  pose proof (proj1 (Forall_forall _ _) Hfields _ Hin)
    as (type' & serialized & Htype' & Hvalue).
  simpl in Htype', Hvalue. rewrite Htype in Htype'.
  injection Htype' as <-. rewrite Hvalue. f_equal. symmetry.
  apply merged_getAll_updated.
  - apply Object_fromEntries_NoDup.
  - apply own_property_fold.
    + by rewrite serialized_fields_names.
    + by apply (elem_of_serialized_fields obj _ name value type).
Qed.

Lemma setObj_then_getAll_witness :
  let S := safeSearchParams
             [("a", "1"); ("valueOf", "0"); ("b", "2"); ("c", "hey")] in
  let S' := safeSearchParams [("a", "3"); ("c", "hey")] in
  let obj := [("a", nullable_any rString); ("b", nullable_any rString)] in
  let values := [("a", Some (Some "3")); ("b", None)] in
  setObj obj values S = Return S'
  ∧ NoDup ["a"; "b"]
  ∧ ("a", Some (Some "3")) ∈ values
  ∧ own_property obj "a" = Some (nullable_any rString)
  ∧ serialize_any (nullable_any rString) (Some (Some "3"))
    = Return (URLSearchParams.getAll "a" (urlSearchParams S')).
Proof.
  intros S S' obj values.
  assert (Hset : setObj obj values S = Return S') by reflexivity.
  assert (Hnodup : NoDup ["a"; "b"]).
  { apply NoDup_cons. split; [|apply NoDup_singleton].
    intros Hin. apply list_elem_of_singleton in Hin. discriminate. }
  assert (Hin : ("a", Some (Some "3")) ∈ values).
  { apply elem_of_cons. by left. }
  split; [exact Hset|]. split; [exact Hnodup|]. split; [exact Hin|].
  split; [reflexivity|].
  exact (setObj_then_getAll obj values S S' "a" (Some (Some "3"))
           (nullable_any rString) Hset Hnodup Hin eq_refl).
Defined.

(** ** sort *)

(** X24. [sort] returns the entries of the facade, all of them and no
    other, in the order of their names, and the entries of one name in
    the order they had. *)
Theorem sort_is_stable (S : TSafeSearchParams) (name : string) :
  Sorted name_le (urlSearchParams (sort S))
  ∧ urlSearchParams (sort S) ≡ₚ urlSearchParams S
  ∧ URLSearchParams.getAll name (urlSearchParams (sort S))
    = URLSearchParams.getAll name (urlSearchParams S).
Proof.
  simpl. split; [apply sort_Sorted|].
  split; [apply sort_Permutation | apply getAll_sort].
Qed.
